(** * Cloud-run event relay: [process_gcs_event] of [main.py]

    A shallow embedding of the Cloud Storage -> Pub/Sub relay and of the
    parts of the Python runtime it calls ([bool()], [isinstance],
    [bytes.decode], [json.loads], [dict.get], [json.dumps], [str.encode]),
    followed by the properties of the handler.

    The handler is a computation in a small monad: the state is the
    module's globals and the trace of effects (lines printed, publish
    calls, waits), the result a value or an exception in flight.  What the
    Pub/Sub service answers is a parameter of an invocation.

    Outside the model: signals that do not derive from [Exception]
    (KeyboardInterrupt, SystemExit), the interpreter's limits (recursion
    depth, digits of an integer literal, memory), failures of [print], and
    binary floating point, which is left to a parameter. *)

From Stdlib Require Import List NArith ZArith Bool Lia.
From Stdlib.Strings Require Import String Ascii Byte.
From Stdlib Require Import DecimalString.
From Stdlib Require DecimalFacts DecimalPos.
Import ListNotations.

Local Open Scope N_scope.

(** ** Python values *)

(** A Python [str] is a sequence of code points (lone surrogates included);
    a [bytes] object is a sequence of octets. *)
Definition pystr := list N.
Definition pybytes := list byte.

(** ASCII literal of the source as a [str]. *)
Definition str_lit (s : string) : pystr :=
  map N_of_ascii (list_ascii_of_string s).

(** The same, with every apostrophe standing for a double quote, to write
    JSON text. *)
Definition json_lit (s : string) : pystr :=
  map (fun c => if c =? 39 then 34 else c) (str_lit s).

Definition pystr_eqb (a b : pystr) : bool :=
  if list_eq_dec N.eq_dec a b then true else false.

(** The values the handler can meet.  A [float] is identified by its
    [repr], a short text; a [dict] keeps insertion order and has [str] keys
    (as every mapping that comes from JSON has); [PyObject] is any other
    object, named by its class: truthy, without a [get] method, neither
    text nor bytes, and not JSON-serializable. *)
#[warnings="-register-all"]
Inductive PyVal : Type :=
| PyNone
| PyBool (b : bool)
| PyInt (z : Z)
| PyFloat (r : string)
| PyStr (s : pystr)
| PyBytes (b : pybytes)
| PyList (l : list PyVal)
| PyDict (items : list (pystr * PyVal))
| PyObject (cls : string).

(** Exceptions, by class; all of them derive from [Exception].  Of these
    only [JSONDecodeError] is matched by the first [except] clause. *)
Inductive PyExc : Type :=
| JSONDecodeError
| UnicodeDecodeError
| UnicodeEncodeError
| TypeError
| AttributeError
| RecursionError
| OtherException (detail : string).

Inductive Res (A : Type) : Type :=
| Ok (a : A)
| Raise (e : PyExc).
Arguments Ok {A} a.
Arguments Raise {A} e.

Definition is_JSONDecodeError (e : PyExc) : bool :=
  match e with JSONDecodeError => true | _ => false end.

(** [bool(v)], the test of [if not data]. *)
Definition py_truthy (v : PyVal) : bool :=
  match v with
  | PyNone => false
  | PyBool b => b
  | PyInt z => negb (Z.eqb z 0)
  | PyFloat r => negb (String.eqb r "0.0" || String.eqb r "-0.0")
  | PyStr s => match s with [] => false | _ => true end
  | PyBytes b => match b with [] => false | _ => true end
  | PyList l => match l with [] => false | _ => true end
  | PyDict items => match items with [] => false | _ => true end
  | PyObject _ => true
  end.

(** [d.get(key)] on the items of a dict: the value, or [None]. *)
Fixpoint dict_get (items : list (pystr * PyVal)) (key : pystr) : PyVal :=
  match items with
  | [] => PyNone
  | (k, v) :: rest => if pystr_eqb k key then v else dict_get rest key
  end.

(** [d[key] = v]: an existing key keeps its place, a new one goes last. *)
Fixpoint dict_set (items : list (pystr * PyVal)) (key : pystr) (v : PyVal)
  : list (pystr * PyVal) :=
  match items with
  | [] => [(key, v)]
  | (k, w) :: rest =>
      if pystr_eqb k key then (k, v) :: rest else (k, w) :: dict_set rest key v
  end.

(** [payload.get(key)]: only a dict has the method here. *)
Definition py_get (payload : PyVal) (key : pystr) : Res PyVal :=
  match payload with
  | PyDict items => Ok (dict_get items key)
  | _ => Raise AttributeError
  end.

(** Induction over values, through the lists that nest them. *)
Section PyVal_induction.

Variable P : PyVal -> Prop.
Hypothesis HNone : P PyNone.
Hypothesis HBool : forall b, P (PyBool b).
Hypothesis HInt : forall z, P (PyInt z).
Hypothesis HFloat : forall r, P (PyFloat r).
Hypothesis HStr : forall s, P (PyStr s).
Hypothesis HBytes : forall b, P (PyBytes b).
Hypothesis HList : forall l, Forall P l -> P (PyList l).
Hypothesis HDict :
  forall items, Forall (fun kv => P (snd kv)) items -> P (PyDict items).
Hypothesis HObject : forall cls, P (PyObject cls).

Fixpoint PyVal_nested_ind (v : PyVal) : P v :=
  match v with
  | PyNone => HNone
  | PyBool b => HBool b
  | PyInt z => HInt z
  | PyFloat r => HFloat r
  | PyStr s => HStr s
  | PyBytes b => HBytes b
  | PyList l =>
      HList l
        ((fix all (l : list PyVal) : Forall P l :=
            match l with
            | [] => Forall_nil P
            | x :: rest => Forall_cons x (PyVal_nested_ind x) (all rest)
            end) l)
  | PyDict items =>
      HDict items
        ((fix all (l : list (pystr * PyVal))
            : Forall (fun kv => P (snd kv)) l :=
            match l with
            | [] => Forall_nil _
            | kv :: rest =>
                Forall_cons kv
                  (match kv as p return P (snd p) with
                   | (_, x) => PyVal_nested_ind x
                   end)
                  (all rest)
            end) items)
  | PyObject cls => HObject cls
  end.

End PyVal_induction.

(** Text without code points from the surrogates on: [str.encode] cannot
    refuse it. *)
Definition encodable (s : pystr) : Prop := Forall (fun c => c < 0xD800) s.

(** ** UTF-8 *)

Definition byte_of_N (n : N) : byte :=
  match Byte.of_N n with Some b => b | None => x00 end.

Definition in_range (lo hi n : N) : bool := (lo <=? n) && (n <=? hi).

(** [bytes.decode('utf-8')] with strict error handling: [None] stands for
    UnicodeDecodeError.  Overlong forms, surrogates and code points above
    U+10FFFF are refused. *)
Fixpoint utf8_decode (bs : pybytes) : option pystr :=
  match bs with
  | [] => Some []
  | b0 :: r0 =>
      let n0 := Byte.to_N b0 in
      if n0 <? 0x80 then option_map (cons n0) (utf8_decode r0)
      else if in_range 0xC2 0xDF n0 then
        match r0 with
        | b1 :: r1 =>
            let n1 := Byte.to_N b1 in
            if in_range 0x80 0xBF n1
            then option_map (cons ((n0 - 0xC0) * 0x40 + (n1 - 0x80)))
                            (utf8_decode r1)
            else None
        | _ => None
        end
      else if in_range 0xE0 0xEF n0 then
        match r0 with
        | b1 :: b2 :: r2 =>
            let n1 := Byte.to_N b1 in
            let n2 := Byte.to_N b2 in
            let lo := if n0 =? 0xE0 then 0xA0 else 0x80 in
            let hi := if n0 =? 0xED then 0x9F else 0xBF in
            if in_range lo hi n1 && in_range 0x80 0xBF n2
            then option_map
                   (cons ((n0 - 0xE0) * 0x1000 + (n1 - 0x80) * 0x40 + (n2 - 0x80)))
                   (utf8_decode r2)
            else None
        | _ => None
        end
      else if in_range 0xF0 0xF4 n0 then
        match r0 with
        | b1 :: b2 :: b3 :: r3 =>
            let n1 := Byte.to_N b1 in
            let n2 := Byte.to_N b2 in
            let n3 := Byte.to_N b3 in
            let lo := if n0 =? 0xF0 then 0x90 else 0x80 in
            let hi := if n0 =? 0xF4 then 0x8F else 0xBF in
            if in_range lo hi n1 && in_range 0x80 0xBF n2 && in_range 0x80 0xBF n3
            then option_map
                   (cons ((n0 - 0xF0) * 0x40000 + (n1 - 0x80) * 0x1000
                          + (n2 - 0x80) * 0x40 + (n3 - 0x80)))
                   (utf8_decode r3)
            else None
        | _ => None
        end
      else None
  end.

(** The octets of one code point; [None] for a surrogate, which
    [str.encode('utf-8')] refuses. *)
Definition utf8_encode_char (c : N) : option pybytes :=
  if c <? 0x80 then Some [byte_of_N c]
  else if c <? 0x800 then
    Some [byte_of_N (0xC0 + c / 0x40); byte_of_N (0x80 + c mod 0x40)]
  else if in_range 0xD800 0xDFFF c then None
  else if c <? 0x10000 then
    Some [byte_of_N (0xE0 + c / 0x1000);
          byte_of_N (0x80 + (c / 0x40) mod 0x40);
          byte_of_N (0x80 + c mod 0x40)]
  else
    Some [byte_of_N (0xF0 + c / 0x40000);
          byte_of_N (0x80 + (c / 0x1000) mod 0x40);
          byte_of_N (0x80 + (c / 0x40) mod 0x40);
          byte_of_N (0x80 + c mod 0x40)].

Fixpoint utf8_encode (s : pystr) : option pybytes :=
  match s with
  | [] => Some []
  | c :: r =>
      match utf8_encode_char c, utf8_encode r with
      | Some bs, Some rest => Some (bs ++ rest)
      | _, _ => None
      end
  end.

Definition str_encode (s : pystr) : Res pybytes :=
  match utf8_encode s with
  | Some bs => Ok bs
  | None => Raise UnicodeEncodeError
  end.

(** ** json.dumps

    The default encoder: [ensure_ascii=True], [allow_nan=True], separators
    [', '] and [': '], no indentation.  Circular structures cannot be
    written as a [PyVal], and the interpreter's recursion limit is not
    modelled. *)

Definition hex_digit (n : N) : N := if n <? 10 then 48 + n else 87 + n.

(** ['\\u{0:04x}'.format(n)] *)
Definition u_escape (n : N) : pystr :=
  [92; 117; hex_digit ((n / 0x1000) mod 16); hex_digit ((n / 0x100) mod 16);
   hex_digit ((n / 0x10) mod 16); hex_digit (n mod 16)].

(** One character under [ESCAPE_ASCII]: the short escapes, printable ASCII
    as it is, [\uXXXX] for the rest of the BMP, a surrogate pair above. *)
Definition escape_char (c : N) : pystr :=
  if c =? 34 then [92; 34]
  else if c =? 92 then [92; 92]
  else if c =? 10 then [92; 110]
  else if c =? 13 then [92; 114]
  else if c =? 9 then [92; 116]
  else if c =? 12 then [92; 102]
  else if c =? 8 then [92; 98]
  else if in_range 32 126 c then [c]
  else if c <? 0x10000 then u_escape c
  else
    let n := c - 0x10000 in
    u_escape (N.lor 0xD800 (N.land (N.shiftr n 10) 0x3FF))
    ++ u_escape (N.lor 0xDC00 (N.land n 0x3FF)).

Definition encode_basestring_ascii (s : pystr) : pystr :=
  34 :: flat_map escape_char s ++ [34].

(** [int.__repr__] *)
Definition int_repr (z : Z) : pystr :=
  str_lit (NilZero.string_of_int (Z.to_int z)).

(** [floatstr]: the three special values are spelled the JavaScript way,
    every other float is its [repr]. *)
Definition floatstr (r : string) : pystr :=
  if String.eqb r "nan" then str_lit "NaN"
  else if String.eqb r "inf" then str_lit "Infinity"
  else if String.eqb r "-inf" then str_lit "-Infinity"
  else str_lit r.

Fixpoint join_sep (sep : pystr) (parts : list pystr) : pystr :=
  match parts with
  | [] => []
  | [p] => p
  | p :: rest => p ++ sep ++ join_sep sep rest
  end.

(** All results, or the first exception. *)
Fixpoint sequence {A : Type} (l : list (Res A)) : Res (list A) :=
  match l with
  | [] => Ok []
  | Raise e :: _ => Raise e
  | Ok a :: rest =>
      match sequence rest with
      | Ok r => Ok (a :: r)
      | Raise e => Raise e
      end
  end.

Definition res_map {A B : Type} (f : A -> B) (r : Res A) : Res B :=
  match r with
  | Ok a => Ok (f a)
  | Raise e => Raise e
  end.

(** [json.dumps(v)].  [bytes] and other objects reach [default()], which
    raises TypeError. *)
Fixpoint json_dumps (v : PyVal) : Res pystr :=
  match v with
  | PyNone => Ok (str_lit "null")
  | PyBool true => Ok (str_lit "true")
  | PyBool false => Ok (str_lit "false")
  | PyInt z => Ok (int_repr z)
  | PyFloat r => Ok (floatstr r)
  | PyStr s => Ok (encode_basestring_ascii s)
  | PyList l =>
      res_map (fun parts => 91 :: join_sep [44; 32] parts ++ [93])
              (sequence (map json_dumps l))
  | PyDict items =>
      res_map (fun parts => 123 :: join_sep [44; 32] parts ++ [125])
              (sequence
                 (map (fun kv =>
                         match kv with
                         | (k, x) =>
                             res_map (fun sx => encode_basestring_ascii k
                                                ++ [58; 32] ++ sx)
                                     (json_dumps x)
                         end)
                      items))
  | PyBytes _ => Raise TypeError
  | PyObject _ => Raise TypeError
  end.

(** What [json.dumps] accepts, by the shape of the value alone. *)
Fixpoint json_serializable (v : PyVal) : bool :=
  match v with
  | PyNone | PyBool _ | PyInt _ | PyFloat _ | PyStr _ => true
  | PyList l => forallb json_serializable l
  | PyDict items =>
      forallb (fun kv => match kv with (_, x) => json_serializable x end) items
  | PyBytes _ | PyObject _ => false
  end.

(** What [json_dumps] does, read off its result: encodable text for a
    serializable value, TypeError for any other. *)
Definition dumps_spec (v : PyVal) : Prop :=
  match json_dumps v with
  | Ok s => json_serializable v = true /\ encodable s
  | Raise e => e = TypeError /\ json_serializable v = false
  end.

(** ** json.loads

    The default decoder ([strict=True]) on a [str].  Messages and positions
    of JSONDecodeError are not modelled, nor are the interpreter's limits
    (recursion depth, digits of an integer literal). *)

Definition is_ws (c : N) : bool :=
  (c =? 32) || (c =? 9) || (c =? 10) || (c =? 13).

Fixpoint skip_ws (s : pystr) : pystr :=
  match s with
  | c :: r => if is_ws c then skip_ws r else s
  | [] => []
  end.

Definition is_digit (c : N) : bool := in_range 48 57 c.

Definition hex_val (c : N) : option N :=
  if in_range 48 57 c then Some (c - 48)
  else if in_range 97 102 c then Some (c - 87)
  else if in_range 65 70 c then Some (c - 55)
  else None.

Definition hex4 (a b c d : N) : option N :=
  match hex_val a, hex_val b, hex_val c, hex_val d with
  | Some x, Some y, Some z, Some w => Some (((x * 16 + y) * 16 + z) * 16 + w)
  | _, _, _, _ => None
  end.

(** The character after a backslash ([BACKSLASH]); [u] is handled apart. *)
Definition unescape (e : N) : option N :=
  if e =? 34 then Some 34
  else if e =? 92 then Some 92
  else if e =? 47 then Some 47
  else if e =? 98 then Some 8
  else if e =? 102 then Some 12
  else if e =? 110 then Some 10
  else if e =? 114 then Some 13
  else if e =? 116 then Some 9
  else None.

Definition push_char (c : N) (r : option (pystr * pystr))
  : option (pystr * pystr) :=
  match r with
  | Some (t, rest) => Some (c :: t, rest)
  | None => None
  end.

Definition join_surrogates (hi lo : N) : N :=
  0x10000 + N.lor (N.shiftl (hi - 0xD800) 10) (lo - 0xDC00).

(** [scanstring], entered after the opening quote: the content and the text
    after the closing quote, [None] for any JSONDecodeError (unterminated
    string, control character, bad escape). *)
Fixpoint scanstring (s : pystr) : option (pystr * pystr) :=
  match s with
  | [] => None
  | c :: r =>
      if c =? 34 then Some ([], r)
      else if c =? 92 then
        match r with
        | [] => None
        | e :: r1 =>
            if e =? 117 then
              match r1 with
              | h1 :: h2 :: h3 :: h4 :: r2 =>
                  match hex4 h1 h2 h3 h4 with
                  | None => None
                  | Some uni =>
                      if in_range 0xD800 0xDBFF uni then
                        match r2 with
                        | b :: u :: g1 :: g2 :: g3 :: g4 :: r3 =>
                            if (b =? 92) && (u =? 117) then
                              match hex4 g1 g2 g3 g4 with
                              | None => None
                              | Some uni2 =>
                                  if in_range 0xDC00 0xDFFF uni2
                                  then push_char (join_surrogates uni uni2)
                                                 (scanstring r3)
                                  else push_char uni (scanstring r2)
                              end
                            else push_char uni (scanstring r2)
                        | _ => push_char uni (scanstring r2)
                        end
                      else push_char uni (scanstring r2)
                  end
              | _ => None
              end
            else
              match unescape e with
              | Some ch => push_char ch (scanstring r1)
              | None => None
              end
        end
      else if c <? 32 then None
      else push_char c (scanstring r)
  end.

Fixpoint span_digits (s : pystr) : pystr * pystr :=
  match s with
  | c :: r =>
      if is_digit c
      then match span_digits r with (ds, rest) => (c :: ds, rest) end
      else ([], s)
  | [] => ([], [])
  end.

Definition int_of_digits (ds : pystr) : Z :=
  fold_left (fun acc d => (acc * 10 + Z.of_N (d - 48))%Z) ds 0%Z.

Fixpoint strip_prefix (p s : pystr) : option pystr :=
  match p with
  | [] => Some s
  | c :: p' =>
      match s with
      | d :: s' => if c =? d then strip_prefix p' s' else None
      | [] => None
      end
  end.

(** The parts of a number, each with the text left after it; an absent
    part is empty and leaves the text as it is. *)
Definition scan_sign (s : pystr) : pystr * pystr :=
  match s with
  | c :: r => if c =? 45 then ([45], r) else ([], s)
  | [] => ([], s)
  end.

Definition scan_int_part (s : pystr) : option (pystr * pystr) :=
  match s with
  | c :: r =>
      if c =? 48 then Some ([48], r)
      else if in_range 49 57 c
           then match span_digits r with (ds, rest) => Some (c :: ds, rest) end
           else None
  | [] => None
  end.

Definition scan_frac (s : pystr) : pystr * pystr :=
  match s with
  | d :: t =>
      if d =? 46
      then match span_digits t with
           | ([], _) => ([], s)
           | (fd, rest) => (46 :: fd, rest)
           end
      else ([], s)
  | [] => ([], s)
  end.

Definition scan_exp (s : pystr) : pystr * pystr :=
  match s with
  | e :: t =>
      if (e =? 101) || (e =? 69) then
        let '(sg, t') :=
          match t with
          | g :: t2 => if (g =? 43) || (g =? 45) then ([g], t2) else ([], t)
          | [] => ([], t)
          end in
        match span_digits t' with
        | ([], _) => ([], s)
        | (ed, rest) => (e :: sg ++ ed, rest)
        end
      else ([], s)
  | [] => ([], s)
  end.

Inductive Scan (A : Type) : Type :=
| Parsed (a : A) (rest : pystr)
| Malformed
| TooDeep.
Arguments Parsed {A} a rest.
Arguments Malformed {A}.
Arguments TooDeep {A}.

Section Decoder.

(** [repr(float(lexeme))] for a JSON number with a fraction or an exponent:
    binary floating point is left to the platform. *)
Variable float_repr_of_literal : pystr -> string.

(** [NUMBER_RE]: an optional minus sign and either a single 0 or a digit
    1-9 followed by digits; then, optionally, a dot and one digit or more;
    then, optionally, e or E, an optional sign and one digit or more.  A
    lexeme with neither fraction nor exponent is an [int], any other a
    [float]. *)
Definition match_number (s : pystr) : option (PyVal * pystr) :=
  let '(sign, s1) := scan_sign s in
  match scan_int_part s1 with
  | None => None
  | Some (integer, r1) =>
      let '(frac, r2) := scan_frac r1 in
      let '(exp, r3) := scan_exp r2 in
      match frac, exp with
      | [], [] =>
          let n := int_of_digits integer in
          Some (PyInt (match sign with [] => n | _ => (- n)%Z end), r3)
      | _, _ =>
          Some (PyFloat (float_repr_of_literal (sign ++ integer ++ frac ++ exp)), r3)
      end
  end.

(** The scalars of [scan_once] that are neither string, object nor array. *)
Definition scan_scalar (s : pystr) : Scan PyVal :=
  match strip_prefix (str_lit "null") s with
  | Some rest => Parsed PyNone rest
  | None =>
  match strip_prefix (str_lit "true") s with
  | Some rest => Parsed (PyBool true) rest
  | None =>
  match strip_prefix (str_lit "false") s with
  | Some rest => Parsed (PyBool false) rest
  | None =>
  match match_number s with
  | Some (v, rest) => Parsed v rest
  | None =>
  match strip_prefix (str_lit "NaN") s with
  | Some rest => Parsed (PyFloat "nan") rest
  | None =>
  match strip_prefix (str_lit "Infinity") s with
  | Some rest => Parsed (PyFloat "inf") rest
  | None =>
  match strip_prefix (str_lit "-Infinity") s with
  | Some rest => Parsed (PyFloat "-inf") rest
  | None => Malformed
  end end end end end end end.

(** [scan_once] with [JSONObject] and [JSONArray].  [fuel] bounds the number
    of nested calls; [parse_members] stands at a key, [parse_elems] at a
    value, each with the items read so far. *)
Fixpoint scan_once (fuel : nat) (s : pystr) {struct fuel} : Scan PyVal :=
  match fuel with
  | O => TooDeep
  | S n =>
      match s with
      | [] => Malformed
      | c :: r =>
          if c =? 34 then
            match scanstring r with
            | Some (str, rest) => Parsed (PyStr str) rest
            | None => Malformed
            end
          else if c =? 123 then
            match skip_ws r with
            | d :: r' =>
                if d =? 125 then Parsed (PyDict []) r'
                else parse_members n (d :: r') []
            | [] => Malformed
            end
          else if c =? 91 then
            match skip_ws r with
            | d :: r' =>
                if d =? 93 then Parsed (PyList []) r'
                else parse_elems n (d :: r') []
            | [] => Malformed
            end
          else scan_scalar s
      end
  end
with parse_members (fuel : nat) (s : pystr) (acc : list (pystr * PyVal))
       {struct fuel} : Scan PyVal :=
  match fuel with
  | O => TooDeep
  | S n =>
      match s with
      | [] => Malformed
      | c :: r =>
          if c =? 34 then
            match scanstring r with
            | None => Malformed
            | Some (key, r1) =>
                match skip_ws r1 with
                | [] => Malformed
                | d :: r2 =>
                    if d =? 58 then
                      match scan_once n (skip_ws r2) with
                      | Parsed v r3 =>
                          let acc' := dict_set acc key v in
                          match skip_ws r3 with
                          | [] => Malformed
                          | e :: r4 =>
                              if e =? 125 then Parsed (PyDict acc') r4
                              else if e =? 44
                                   then parse_members n (skip_ws r4) acc'
                                   else Malformed
                          end
                      | Malformed => Malformed
                      | TooDeep => TooDeep
                      end
                    else Malformed
                end
            end
          else Malformed
      end
  end
with parse_elems (fuel : nat) (s : pystr) (acc : list PyVal)
       {struct fuel} : Scan PyVal :=
  match fuel with
  | O => TooDeep
  | S n =>
      match scan_once n s with
      | Parsed v r1 =>
          let acc' := acc ++ [v] in
          match skip_ws r1 with
          | [] => Malformed
          | e :: r2 =>
              if e =? 93 then Parsed (PyList acc') r2
              else if e =? 44 then parse_elems n (skip_ws r2) acc'
              else Malformed
          end
      | Malformed => Malformed
      | TooDeep => TooDeep
      end
  end.

(** [JSONDecoder.decode]: one value between optional whitespace, nothing
    after it. *)
Definition decode (s : pystr) : Res PyVal :=
  match scan_once (S (2 * List.length s)) (skip_ws s) with
  | Parsed v rest =>
      match skip_ws rest with
      | [] => Ok v
      | _ :: _ => Raise JSONDecodeError
      end
  | Malformed => Raise JSONDecodeError
  | TooDeep => Raise RecursionError
  end.

(** [json.loads(s)] for a [str]: a leading byte order mark is refused. *)
Definition json_loads (s : pystr) : Res PyVal :=
  match s with
  | c :: _ => if c =? 0xFEFF then Raise JSONDecodeError else decode s
  | [] => decode s
  end.

End Decoder.

(** A scan that has fuel for its text does not run out of it, and leaves
    less text than it was given. *)
Definition enough_fuel (r : Scan PyVal) (s : pystr) : Prop :=
  r <> TooDeep
  /\ forall v rest, r = Parsed v rest -> (List.length rest < List.length s)%nat.

(** A Unicode scalar value is a code point that is not a surrogate; text
    made of scalar values is what UTF-8 can carry. *)
Definition is_scalar (c : N) : bool :=
  (c <? 0xD800) || in_range 0xE000 0x10FFFF c.

Definition unicode_text (s : pystr) : Prop :=
  Forall (fun c => is_scalar c = true) s.

(** The values the notification is documented to hold: text, or nothing. *)
Definition text_or_null (v : PyVal) : Prop :=
  v = PyNone \/ exists s, v = PyStr s /\ unicode_text s.

(** ** The module: globals, the event envelope, the Pub/Sub service *)

(** The handle returned by [pubsub_v1.PublisherClient()]. *)
Record PublisherClient : Type := { client_id : nat }.

(** The module-level names of [main.py]. *)
Record Globals : Type := {
  PROJECT_ID : option pystr;
  PUBSUB_TOPIC_ID : option pystr;
  publisher : PublisherClient;
  topic_path : pystr
}.

(** The envelope: [cloud_event.attributes] and [cloud_event.get_data()]. *)
Record CloudEvent : Type := {
  attributes : list (pystr * pystr);
  data : PyVal
}.

Definition get_data (cloud_event : CloudEvent) : PyVal := data cloud_event.

(** The future returned by [publish]: [result()] gives the message
    identifier or raises. *)
Record Future : Type := { result : Res pystr }.

(** What the Pub/Sub service does with [publisher.publish(topic, data)]
    during one invocation: it raises, or hands back a future. *)
Definition Service : Type := pystr -> pybytes -> Res Future.

(** One constructor per [print] of the source, with the values it
    interpolates. *)
Inductive LogLine : Type :=
| LConfigMissing
| LReceived (attrs : list (pystr * pystr))
| LNoData
| LJSONError (e : PyExc)
| LRawData (raw : PyVal)
| LUnexpected (e : PyExc)
| LProcessingFile (file_name : PyVal)
| LBucket (bucket_name : PyVal)
| LSize (file_size : PyVal)
| LFormat (content_type : PyVal)
| LPublished (message_id : pystr) (topic_id : option pystr)
| LPublishFailed (e : PyExc).

(** What an invocation does to the outside, in order. *)
Inductive Effect : Type :=
| Print (line : LogLine)
| PublishCall (topic : pystr) (body : pybytes)
| AwaitResult.

(** [str(x)] of an optional string: [None] prints as its name. *)
Definition str_of_optional (o : option pystr) : pystr :=
  match o with
  | Some s => s
  | None => str_lit "None"
  end.

(** [PublisherClient.topic_path(project, topic)] *)
Definition PublisherClient_topic_path (project topic : option pystr) : pystr :=
  str_lit "projects/" ++ str_of_optional project
  ++ str_lit "/topics/" ++ str_of_optional topic.

Definition unset (o : option pystr) : bool :=
  match o with
  | None => true
  | Some [] => true
  | Some (_ :: _) => false
  end.

(** Lines 10-24, run once when the module is imported: the globals and
    what is printed. *)
Definition module_init (environ : pystr -> option pystr)
                       (client : PublisherClient) : Globals * list Effect :=
  let project := environ (str_lit "GCP_PROJECT") in
  let topic := environ (str_lit "PUBSUB_TOPIC_ID") in
  ({| PROJECT_ID := project;
      PUBSUB_TOPIC_ID := topic;
      publisher := client;
      topic_path := PublisherClient_topic_path project topic |},
   if unset project || unset topic then [Print LConfigMissing] else []).

(** ** The monad of the handler

    State is the module's globals and the trace of effects so far; a
    computation ends with a value or with an exception in flight. *)

Record World : Type := {
  globals : Globals;
  trace : list Effect
}.

Definition M (A : Type) : Type := Service -> World -> Res A * World.

Definition ret {A : Type} (a : A) : M A := fun _ w => (Ok a, w).

Definition bind {A B : Type} (m : M A) (k : A -> M B) : M B :=
  fun svc w =>
    match m svc w with
    | (Ok a, w') => k a svc w'
    | (Raise e, w') => (Raise e, w')
    end.

Notation "x <- m ;; k" := (bind m (fun x => k))
  (at level 61, m at next level, right associativity).
Notation "m ;; k" := (bind m (fun _ => k))
  (at level 61, right associativity).

Definition emit (ef : Effect) (w : World) : World :=
  {| globals := globals w; trace := trace w ++ [ef] |}.

Definition lift {A : Type} (r : Res A) : M A := fun _ w => (r, w).

Definition print (line : LogLine) : M unit :=
  fun _ w => (Ok tt, emit (Print line) w).

Definition read_global {A : Type} (name : Globals -> A) : M A :=
  fun _ w => (Ok (name (globals w)), w).

(** [publisher.publish(topic, data)] *)
Definition publish (topic : pystr) (body : pybytes) : M Future :=
  fun svc w => (svc topic body, emit (PublishCall topic body) w).

(** [future.result()] *)
Definition await_result (future : Future) : M pystr :=
  fun _ w => (result future, emit AwaitResult w).

(** [try: body / except Exception as e: handler e] *)
Definition try_except {A : Type} (body : M A) (handler : PyExc -> M A) : M A :=
  fun svc w =>
    match body svc w with
    | (Ok a, w') => (Ok a, w')
    | (Raise e, w') => handler e svc w'
    end.

(** ** The handler *)

Section Relay.

Variable float_repr_of_literal : pystr -> string.

(** Lines 50-56, the body of the first [try]: a dict is taken as it is,
    [bytes] are decoded first, and [json.loads] raises TypeError for
    anything that is not text. *)
Definition normalize (data : PyVal) : Res PyVal :=
  match data with
  | PyDict _ => Ok data
  | PyBytes b =>
      match utf8_decode b with
      | Some payload_str => json_loads float_repr_of_literal payload_str
      | None => Raise UnicodeDecodeError
      end
  | PyStr payload_str => json_loads float_repr_of_literal payload_str
  | _ => Raise TypeError
  end.

(** Lines 79-85: the record, [json.dumps] and [.encode('utf-8')]. *)
Definition message_payload (file_name file_size content_type : PyVal) : PyVal :=
  PyDict [(str_lit "fileName", file_name);
          (str_lit "fileSize", file_size);
          (str_lit "fileFormat", content_type)].

Definition serialize (v : PyVal) : Res pybytes :=
  match json_dumps v with
  | Ok text => str_encode text
  | Raise e => Raise e
  end.

Definition process_gcs_event (cloud_event : CloudEvent) : M unit :=
  print (LReceived (attributes cloud_event)) ;;
  let data := get_data cloud_event in
  if negb (py_truthy data) then
    print LNoData
  else
    match normalize data with
    | Raise e =>
        if is_JSONDecodeError e then
          print (LJSONError e) ;;
          print (LRawData data)
        else
          print (LUnexpected e)
    | Ok payload =>
        file_name <- lift (py_get payload (str_lit "name")) ;;
        bucket_name <- lift (py_get payload (str_lit "bucket")) ;;
        file_size <- lift (py_get payload (str_lit "size")) ;;
        content_type <- lift (py_get payload (str_lit "contentType")) ;;
        print (LProcessingFile file_name) ;;
        print (LBucket bucket_name) ;;
        print (LSize file_size) ;;
        print (LFormat content_type) ;;
        message_data <-
          lift (serialize (message_payload file_name file_size content_type)) ;;
        try_except
          (topic <- read_global topic_path ;;
           future <- publish topic message_data ;;
           message_id <- await_result future ;;
           topic_id <- read_global PUBSUB_TOPIC_ID ;;
           print (LPublished message_id topic_id))
          (fun e => print (LPublishFailed e))
    end.

(** One invocation from globals [g], with the service behaving as [svc]:
    how it ends, and the globals and the trace it leaves. *)
Definition invoke (g : Globals) (svc : Service) (cloud_event : CloudEvent)
  : Res unit * World :=
  process_gcs_event cloud_event svc {| globals := g; trace := [] |}.

End Relay.

(** ** Observations on a trace *)

Fixpoint publish_calls (t : list Effect) : list (pystr * pybytes) :=
  match t with
  | [] => []
  | PublishCall topic body :: rest => (topic, body) :: publish_calls rest
  | _ :: rest => publish_calls rest
  end.

Fixpoint printed (t : list Effect) : list LogLine :=
  match t with
  | [] => []
  | Print line :: rest => line :: printed rest
  | _ :: rest => printed rest
  end.

Definition returns_normally (r : Res unit * World) : Prop := fst r = Ok tt.

Definition effects (r : Res unit * World) : list Effect := trace (snd r).

(** The four lines printed once the fields are read. *)
Definition field_lines (items : list (pystr * PyVal)) : list Effect :=
  [Print (LProcessingFile (dict_get items (str_lit "name")));
   Print (LBucket (dict_get items (str_lit "bucket")));
   Print (LSize (dict_get items (str_lit "size")));
   Print (LFormat (dict_get items (str_lit "contentType")))].

(** The record built from a mapping. *)
Definition record_of (items : list (pystr * PyVal)) : PyVal :=
  message_payload (dict_get items (str_lit "name"))
                  (dict_get items (str_lit "size"))
                  (dict_get items (str_lit "contentType")).

(** What follows the publish call, by what the service does. *)
Definition after_publish (topic_id : option pystr) (outcome : Res Future)
  : list Effect :=
  match outcome with
  | Raise e => [Print (LPublishFailed e)]
  | Ok future =>
      match result future with
      | Raise e => [AwaitResult; Print (LPublishFailed e)]
      | Ok message_id => [AwaitResult; Print (LPublished message_id topic_id)]
      end
  end.

(** The ways an invocation can go: how it ends and the effects it leaves,
    by the branch taken. *)
Inductive Run (float_repr_of_literal : pystr -> string) (g : Globals)
              (svc : Service) (cloud_event : CloudEvent)
  : Res unit -> list Effect -> Prop :=
| RunNoData :
    py_truthy (data cloud_event) = false ->
    Run float_repr_of_literal g svc cloud_event (Ok tt)
        [Print (LReceived (attributes cloud_event)); Print LNoData]
| RunMalformed :
    py_truthy (data cloud_event) = true ->
    normalize float_repr_of_literal (data cloud_event) = Raise JSONDecodeError ->
    Run float_repr_of_literal g svc cloud_event (Ok tt)
        [Print (LReceived (attributes cloud_event));
         Print (LJSONError JSONDecodeError);
         Print (LRawData (data cloud_event))]
| RunUnexpected (e : PyExc) :
    py_truthy (data cloud_event) = true ->
    normalize float_repr_of_literal (data cloud_event) = Raise e ->
    is_JSONDecodeError e = false ->
    Run float_repr_of_literal g svc cloud_event (Ok tt)
        [Print (LReceived (attributes cloud_event)); Print (LUnexpected e)]
| RunNotAMapping (payload : PyVal) :
    py_truthy (data cloud_event) = true ->
    normalize float_repr_of_literal (data cloud_event) = Ok payload ->
    (forall items, payload <> PyDict items) ->
    Run float_repr_of_literal g svc cloud_event (Raise AttributeError)
        [Print (LReceived (attributes cloud_event))]
| RunNotSerializable (items : list (pystr * PyVal)) (e : PyExc) :
    py_truthy (data cloud_event) = true ->
    normalize float_repr_of_literal (data cloud_event) = Ok (PyDict items) ->
    serialize (record_of items) = Raise e ->
    Run float_repr_of_literal g svc cloud_event (Raise e)
        (Print (LReceived (attributes cloud_event)) :: field_lines items)
| RunPublished (items : list (pystr * PyVal)) (body : pybytes) :
    py_truthy (data cloud_event) = true ->
    normalize float_repr_of_literal (data cloud_event) = Ok (PyDict items) ->
    serialize (record_of items) = Ok body ->
    Run float_repr_of_literal g svc cloud_event (Ok tt)
        (Print (LReceived (attributes cloud_event)) :: field_lines items
         ++ PublishCall (topic_path g) body
            :: after_publish (PUBSUB_TOPIC_ID g) (svc (topic_path g) body)).

(** The payloads that step 1 takes for no data. *)
Inductive absent_or_empty : PyVal -> Prop :=
| data_null : absent_or_empty PyNone
| data_empty_bytes : absent_or_empty (PyBytes [])
| data_empty_text : absent_or_empty (PyStr [])
| data_empty_mapping : absent_or_empty (PyDict []).

(** Text, or bytes that decode to text, on which [json.loads] raises
    JSONDecodeError. *)
Inductive fails_json_parsing (float_repr_of_literal : pystr -> string)
  : PyVal -> Prop :=
| text_fails (s : pystr) :
    json_loads float_repr_of_literal s = Raise JSONDecodeError ->
    fails_json_parsing float_repr_of_literal (PyStr s)
| bytes_fail (b : pybytes) (s : pystr) :
    utf8_decode b = Some s ->
    json_loads float_repr_of_literal s = Raise JSONDecodeError ->
    fails_json_parsing float_repr_of_literal (PyBytes b).

(** Bytes that are not UTF-8. *)
Inductive fails_utf8_decoding : PyVal -> Prop :=
| undecodable (b : pybytes) :
    utf8_decode b = None -> fails_utf8_decoding (PyBytes b).

(** The publish call on [topic] and [body] fails with [e]: the call itself
    raises, or the wait on its future does. *)
Definition publish_fails (svc : Service) (topic : pystr) (body : pybytes)
                         (e : PyExc) : Prop :=
  svc topic body = Raise e
  \/ exists future, svc topic body = Ok future /\ result future = Raise e.

(** ** Sample inputs *)

Definition string_of_pystr (s : pystr) : string :=
  string_of_list_ascii (map ascii_of_N s).

(** A stand-in for the platform's float conversion in the samples, none of
    which reads a number with a fraction or an exponent. *)
Definition literal_float_repr (lexeme : pystr) : string := string_of_pystr lexeme.

Definition sample_environ (name : pystr) : option pystr :=
  if pystr_eqb name (str_lit "GCP_PROJECT") then Some (str_lit "demo")
  else if pystr_eqb name (str_lit "PUBSUB_TOPIC_ID") then Some (str_lit "uploads")
  else None.

Definition sample_globals : Globals :=
  fst (module_init sample_environ {| client_id := 0 |}).

(** A service that acknowledges, one whose call raises, one whose
    acknowledgment never comes. *)
Definition acking_service : Service :=
  fun _ _ => Ok {| result := Ok (str_lit "4711") |}.

Definition refusing_service : Service :=
  fun _ _ => Raise (OtherException "ServiceUnavailable").

Definition silent_service : Service :=
  fun _ _ => Ok {| result := Raise (OtherException "DeadlineExceeded") |}.

(** The notification of the second testable property, as text and as its
    UTF-8 bytes, and the summary expected from it. *)
Definition jpeg_notification_text : pystr :=
  json_lit "{'name':'a.jpg','bucket':'b','size':'1024','contentType':'image/jpeg'}".

Definition jpeg_notification : pybytes := map byte_of_N jpeg_notification_text.

Definition jpeg_summary : PyVal :=
  PyDict [(str_lit "fileName", PyStr (str_lit "a.jpg"));
          (str_lit "fileSize", PyStr (str_lit "1024"));
          (str_lit "fileFormat", PyStr (str_lit "image/jpeg"))].

Definition jpeg_summary_text : pystr :=
  json_lit "{'fileName': 'a.jpg', 'fileSize': '1024', 'fileFormat': 'image/jpeg'}".

(** ** Vocabulary of the further properties *)

(** A second invocation on the state the first one left: the module's
    globals persist between the requests one instance serves, and the
    effects of the second follow those of the first. *)
Definition invoke_then (fr : pystr -> string) (g : Globals)
    (svc1 : Service) (event1 : CloudEvent)
    (svc2 : Service) (event2 : CloudEvent) : Res unit * World :=
  process_gcs_event fr event2 svc2 (snd (invoke fr g svc1 event1)).

(** What an invocation hands to the publisher, read off the payload. *)
Definition to_publish (fr : pystr -> string) (g : Globals) (data : PyVal)
  : list (pystr * pybytes) :=
  if py_truthy data then
    match normalize fr data with
    | Ok (PyDict items) =>
        match serialize (record_of items) with
        | Ok body => [(topic_path g, body)]
        | Raise _ => []
        end
    | _ => []
    end
  else [].

(** How an invocation ends, read off the payload. *)
Definition to_end (fr : pystr -> string) (data : PyVal) : Res unit :=
  if py_truthy data then
    match normalize fr data with
    | Ok (PyDict items) =>
        match serialize (record_of items) with
        | Ok _ => Ok tt
        | Raise e => Raise e
        end
    | Ok _ => Raise AttributeError
    | Raise _ => Ok tt
    end
  else Ok tt.

(** An environment variable that [not all([...])] counts as missing:
    unset, or set to the empty string. *)
Definition missing (o : option pystr) : Prop := o = None \/ o = Some [].

(** What may follow a value inside a document: the end of the text, a
    comma, or a closing bracket or brace. *)
Definition delimited (rest : pystr) : bool :=
  match rest with
  | [] => true
  | c :: _ => (c =? 44) || (c =? 93) || (c =? 125)
  end.

(** The digits of a decimal numeral as code points. *)
Fixpoint udigits (d : Decimal.uint) : pystr :=
  match d with
  | Decimal.Nil => []
  | Decimal.D0 l => 48 :: udigits l
  | Decimal.D1 l => 49 :: udigits l
  | Decimal.D2 l => 50 :: udigits l
  | Decimal.D3 l => 51 :: udigits l
  | Decimal.D4 l => 52 :: udigits l
  | Decimal.D5 l => 53 :: udigits l
  | Decimal.D6 l => 54 :: udigits l
  | Decimal.D7 l => 55 :: udigits l
  | Decimal.D8 l => 56 :: udigits l
  | Decimal.D9 l => 57 :: udigits l
  end.

Fixpoint distinct_keys (keys : list pystr) : bool :=
  match keys with
  | [] => true
  | k :: rest => negb (existsb (pystr_eqb k) rest) && distinct_keys rest
  end.

(** The values [json.loads] can produce back from what [json.dumps]
    writes: None, booleans, integers, strings of code points, lists, and
    dicts whose keys are distinct strings.  Floats are left out (their
    text is a parameter), as are bytes and other objects, which
    [json.dumps] refuses. *)
Fixpoint json_value (v : PyVal) : bool :=
  match v with
  | PyNone | PyBool _ | PyInt _ => true
  | PyStr s => forallb is_scalar s
  | PyList l => forallb json_value l
  | PyDict items =>
      forallb (fun kv => match kv with
                         | (k, x) => forallb is_scalar k && json_value x
                         end) items
      && distinct_keys (map fst items)
  | PyFloat _ | PyBytes _ | PyObject _ => false
  end.

(** A code point that can open a value. *)
Definition value_start (c : N) : bool :=
  negb (is_ws c) && negb (c =? 93) && negb (c =? 125) && negb (c =? 0xFEFF).

(** [v] is written as a text that the scanner reads back as [v], whatever
    delimiter follows. *)
Definition scans_back (fr : pystr -> string) (v : PyVal) : Prop :=
  exists text c t,
    json_dumps v = Ok text /\ text = c :: t /\ value_start c = true
    /\ forall rest, delimited rest = true ->
         exists n, scan_once fr n (text ++ rest) = Parsed v rest.

(** One [key: value] member as [json.dumps] writes it. *)
Definition member_text (kv : pystr * PyVal) : Res pystr :=
  match kv with
  | (k, x) =>
      res_map (fun sx => encode_basestring_ascii k ++ [58; 32] ++ sx)
              (json_dumps x)
  end.

Definition member_ok (kv : pystr * PyVal) : bool :=
  match kv with
  | (k, x) => forallb is_scalar k && json_value x
  end.

(** * Properties *)

(** ** The runtime on sample inputs *)

Example truthiness :
  map py_truthy [PyNone; PyDict []; PyBytes []; PyStr []; PyInt 0; PyFloat "0.0";
                 PyDict [(str_lit "name", PyNone)]; PyBytes [x00]; PyStr [32];
                 PyObject "CloudEvent"]
  = [false; false; false; false; false; false; true; true; true; true].
Proof. reflexivity. Qed.

Example utf8_decode_samples :
  utf8_decode [xc3; xa9] = Some [233]
  /\ utf8_decode [xe2; x82; xac] = Some [8364]
  /\ utf8_decode [xf0; x9f; x98; x80] = Some [128512]
  /\ utf8_decode [xc0; x80] = None
  /\ utf8_decode [xed; xa0; x80] = None
  /\ utf8_decode [xf4; x90; x80; x80] = None
  /\ utf8_decode [xe2; x82] = None
  /\ utf8_decode [xff] = None.
Proof. repeat split. Qed.

Example json_loads_samples :
  json_loads literal_float_repr
    (json_lit " {'a': 1, 'b': [true, null, -0, 'x\u00e9\ud83d\ude00'], 'a': {}} ")
  = Ok (PyDict [(str_lit "a", PyDict []);
                (str_lit "b", PyList [PyBool true; PyNone; PyInt 0;
                                      PyStr [120; 233; 128512]])])
  /\ json_loads literal_float_repr (json_lit "[NaN, -Infinity]")
     = Ok (PyList [PyFloat "nan"; PyFloat "-inf"])
  /\ json_loads literal_float_repr (json_lit "[1,]") = Raise JSONDecodeError
  /\ json_loads literal_float_repr (json_lit "{'a': 1,}") = Raise JSONDecodeError
  /\ json_loads literal_float_repr (json_lit "{a: 1}") = Raise JSONDecodeError
  /\ json_loads literal_float_repr (json_lit "01") = Raise JSONDecodeError
  /\ json_loads literal_float_repr (json_lit "'a") = Raise JSONDecodeError
  /\ json_loads literal_float_repr (json_lit "{} {}") = Raise JSONDecodeError
  /\ json_loads literal_float_repr [] = Raise JSONDecodeError
  /\ json_loads literal_float_repr (0xFEFF :: json_lit "{}") = Raise JSONDecodeError.
Proof. repeat split. Qed.

Example json_dumps_samples :
  json_dumps (PyDict [(str_lit "n", PyList [PyInt (-12); PyBool false; PyNone]);
                      (str_lit "s", PyStr [233; 128512; 10; 34; 127]);
                      (str_lit "f", PyFloat "inf")])
  = Ok (json_lit "{'n': [-12, false, null], 's': '\u00e9\ud83d\ude00\n\'\u007f', 'f': Infinity}")
  /\ json_dumps (PyList [PyInt 1; PyBytes [x61]]) = Raise TypeError
  /\ json_dumps (PyObject "set") = Raise TypeError.
Proof. repeat split. Qed.

(** JSON text that is valid but is not an object passes the first [try];
    [payload.get] then raises AttributeError outside any handler. *)
Example json_array_payload :
  invoke literal_float_repr sample_globals acking_service
         {| attributes := []; data := PyStr (json_lit "[1, 2]") |}
  = (Raise AttributeError,
     {| globals := sample_globals; trace := [Print (LReceived [])] |}).
Proof. reflexivity. Qed.

Example sample_globals_value :
  sample_globals
  = {| PROJECT_ID := Some (str_lit "demo");
       PUBSUB_TOPIC_ID := Some (str_lit "uploads");
       publisher := {| client_id := 0 |};
       topic_path := str_lit "projects/demo/topics/uploads" |}
  /\ module_init (fun _ => None) {| client_id := 0 |}
     = ({| PROJECT_ID := None;
           PUBSUB_TOPIC_ID := None;
           publisher := {| client_id := 0 |};
           topic_path := str_lit "projects/None/topics/None" |},
        [Print LConfigMissing]).
Proof. split; reflexivity. Qed.

(** ** How an invocation runs *)

(** The globals are never written, and the invocation goes one of the six
    ways of [Run]. *)
Lemma invoke_run :
  forall fr g svc cloud_event,
  exists res t,
    invoke fr g svc cloud_event = (res, {| globals := g; trace := t |})
    /\ Run fr g svc cloud_event res t.
Proof.
  intros fr g svc cloud_event.
  unfold invoke, process_gcs_event, bind, print, get_data, emit, lift,
    try_except, read_global, publish, await_result. simpl.
  destruct (py_truthy (data cloud_event)) eqn:T; simpl.
  2:{ eexists. eexists. split; [reflexivity|]. apply RunNoData. exact T. }
  destruct (normalize fr (data cloud_event)) as [payload|e] eqn:N.
  2:{ destruct (is_JSONDecodeError e) eqn:J; simpl.
      - destruct e; try discriminate J.
        eexists. eexists. split; [reflexivity|]. apply RunMalformed; assumption.
      - eexists. eexists. split; [reflexivity|].
        apply RunUnexpected; assumption. }
  destruct payload;
    try (eexists; eexists; split; [reflexivity|];
         eapply RunNotAMapping; [exact T|exact N|discriminate]).
  simpl.
  change (message_payload (dict_get items (str_lit "name"))
                          (dict_get items (str_lit "size"))
                          (dict_get items (str_lit "contentType")))
    with (record_of items).
  destruct (serialize (record_of items)) as [body|e] eqn:Z; simpl.
  2:{ eexists. eexists. split; [reflexivity|].
      eapply RunNotSerializable; eassumption. }
  pose proof (RunPublished fr g svc cloud_event items body T N Z) as R.
  unfold after_publish in R.
  destruct (svc (topic_path g) body) as [future|e]; simpl.
  - destruct (result future); simpl;
      (eexists; eexists; split; [reflexivity|]; exact R).
  - eexists. eexists. split; [reflexivity|]. exact R.
Qed.

(** The branch an invocation takes is fixed by its input. *)
Lemma Run_invoke :
  forall fr g svc cloud_event res t,
  Run fr g svc cloud_event res t ->
  invoke fr g svc cloud_event = (res, {| globals := g; trace := t |}).
Proof.
  intros fr g svc cloud_event res t R.
  destruct (invoke_run fr g svc cloud_event) as [res' [t' [E R']]].
  rewrite E.
  destruct R; inversion R'; subst; try congruence;
    repeat match goal with
           | H : forall items, PyDict _ <> PyDict items |- _ =>
               exfalso; eapply H; reflexivity
           | H1 : normalize ?f ?d = _, H2 : normalize ?f ?d = _ |- _ =>
               rewrite H1 in H2; inversion H2; subst; clear H2
           | H1 : serialize ?v = _, H2 : serialize ?v = _ |- _ =>
               rewrite H1 in H2; inversion H2; subst; clear H2
           | H : is_JSONDecodeError JSONDecodeError = false |- _ =>
               discriminate H
           end;
    try reflexivity; try congruence.
Qed.

Lemma after_publish_no_call :
  forall topic_id outcome, publish_calls (after_publish topic_id outcome) = [].
Proof.
  intros topic_id [future|e]; simpl; [|reflexivity].
  destruct (result future); reflexivity.
Qed.

(** The publish calls of a run: one when it reaches step 6, none before. *)
Lemma Run_publish_calls :
  forall fr g svc cloud_event res t,
  Run fr g svc cloud_event res t ->
  publish_calls t = []
  \/ exists items body,
       py_truthy (data cloud_event) = true
       /\ normalize fr (data cloud_event) = Ok (PyDict items)
       /\ serialize (record_of items) = Ok body
       /\ res = Ok tt
       /\ publish_calls t = [(topic_path g, body)].
Proof.
  intros fr g svc cloud_event res t R. destruct R; try (left; reflexivity).
  right. exists items, body. repeat (split; [assumption || reflexivity|]).
  simpl. rewrite after_publish_no_call. reflexivity.
Qed.

(** ** The encoder *)

Lemma hex_digit_small : forall n, n < 16 -> hex_digit n < 128.
Proof.
  intros n H. unfold hex_digit. destruct (n <? 10); lia.
Qed.

Lemma encodable_app : forall a b, encodable a -> encodable b -> encodable (a ++ b).
Proof.
  intros a b Ha Hb. unfold encodable in *. apply Forall_app. split; assumption.
Qed.

Lemma u_escape_encodable : forall n, encodable (u_escape n).
Proof.
  intros n. unfold encodable, u_escape.
  repeat constructor; try lia;
    (eapply N.lt_trans; [apply hex_digit_small; apply N.mod_lt; discriminate | lia]).
Qed.

Lemma escape_char_encodable : forall c, encodable (escape_char c).
Proof.
  intros c. unfold escape_char.
  repeat match goal with
         | |- encodable (if ?b then _ else _) => destruct b eqn:?
         end;
    try (repeat constructor; lia);
    try apply u_escape_encodable.
  - unfold in_range in *. apply andb_prop in Heqb6. destruct Heqb6 as [_ Hle].
    apply N.leb_le in Hle. repeat constructor. lia.
  - apply encodable_app; apply u_escape_encodable.
Qed.

Lemma encode_basestring_ascii_encodable :
  forall s, encodable (encode_basestring_ascii s).
Proof.
  intros s. unfold encode_basestring_ascii.
  apply Forall_cons; [lia|]. apply encodable_app.
  - induction s as [|c r IH]; simpl; [constructor|].
    apply encodable_app; [apply escape_char_encodable | exact IH].
  - repeat constructor.
Qed.

Lemma str_lit_encodable : forall s, encodable (str_lit s).
Proof.
  intros s. unfold encodable, str_lit. apply Forall_forall. intros c Hc.
  apply in_map_iff in Hc. destruct Hc as [a [<- _]].
  pose proof (N_ascii_bounded a). lia.
Qed.

Lemma int_repr_encodable : forall z, encodable (int_repr z).
Proof.
  intros z. apply str_lit_encodable.
Qed.

Lemma floatstr_encodable : forall r, encodable (floatstr r).
Proof.
  intros r. unfold floatstr.
  repeat match goal with
         | |- encodable (if ?b then _ else _) => destruct b
         end; apply str_lit_encodable.
Qed.

Lemma join_sep_encodable :
  forall sep parts,
  encodable sep -> Forall encodable parts -> encodable (join_sep sep parts).
Proof.
  intros sep parts Hsep Hparts.
  induction Hparts as [|p rest Hp Hrest IH]; simpl; [constructor|].
  destruct rest as [|q rest']; [exact Hp|].
  apply encodable_app; [exact Hp|]. apply encodable_app; [exact Hsep|exact IH].
Qed.

Lemma sequence_spec :
  forall (A : Type) (f : A -> Res pystr) (ser : A -> bool) (l : list A),
  Forall (fun a => match f a with
                   | Ok s => ser a = true /\ encodable s
                   | Raise e => e = TypeError /\ ser a = false
                   end) l ->
  match sequence (map f l) with
  | Ok parts => forallb ser l = true /\ Forall encodable parts
  | Raise e => e = TypeError /\ forallb ser l = false
  end.
Proof.
  intros A f ser l H.
  induction H as [|x rest Hx Hrest IH]; simpl.
  - split; [reflexivity|constructor].
  - destruct (f x) as [sx|e].
    + destruct Hx as [Sx Ax]. rewrite Sx. simpl.
      destruct (sequence (map f rest)) as [parts|e].
      * destruct IH as [Sr Ar]. split; [exact Sr|]. constructor; assumption.
      * exact IH.
    + destruct Hx as [-> Sx]. rewrite Sx. split; reflexivity.
Qed.

Lemma bracketed_encodable :
  forall open close parts,
  open < 128 -> close < 128 -> Forall encodable parts ->
  encodable (open :: join_sep [44; 32] parts ++ [close]).
Proof.
  intros open close parts Ho Hc Hp.
  apply Forall_cons; [lia|]. apply encodable_app.
  - apply join_sep_encodable; [repeat constructor | exact Hp].
  - constructor; [lia|constructor].
Qed.

Lemma bracketed_spec :
  forall (q : Res (list pystr)) (open close : N) (P Q : Prop),
  open < 128 -> close < 128 ->
  match q with
  | Ok parts => P /\ Forall encodable parts
  | Raise e => e = TypeError /\ Q
  end ->
  match res_map (fun parts => open :: join_sep [44; 32] parts ++ [close]) q with
  | Ok s => P /\ encodable s
  | Raise e => e = TypeError /\ Q
  end.
Proof.
  intros q open close P Q Ho Hc H. destruct q as [parts|e]; simpl.
  - destruct H as [HP A]. split; [exact HP|].
    apply bracketed_encodable; assumption.
  - exact H.
Qed.

Lemma json_dumps_spec : forall v, dumps_spec v.
Proof.
  induction v using PyVal_nested_ind; unfold dumps_spec;
    cbn [json_dumps json_serializable].
  - split; [reflexivity|apply str_lit_encodable].
  - destruct b; (split; [reflexivity|apply str_lit_encodable]).
  - split; [reflexivity|apply int_repr_encodable].
  - split; [reflexivity|apply floatstr_encodable].
  - split; [reflexivity|apply encode_basestring_ascii_encodable].
  - split; reflexivity.
  - apply bracketed_spec; [lia|lia|].
    apply (sequence_spec PyVal json_dumps json_serializable l H).
  - apply bracketed_spec; [lia|lia|].
    apply (sequence_spec (pystr * PyVal)%type
             (fun kv => match kv with
                        | (k, x) =>
                            res_map (fun sx => encode_basestring_ascii k
                                               ++ [58; 32] ++ sx)
                                    (json_dumps x)
                        end)
             (fun kv => match kv with (_, x) => json_serializable x end)).
    induction H as [|[k x] rest Hx Hrest IH]; constructor; [|exact IH].
    unfold dumps_spec in Hx. simpl in Hx.
    destruct (json_dumps x) as [sx|e]; simpl; [|exact Hx].
    destruct Hx as [Sx Ax]. split; [exact Sx|].
    change (encodable (encode_basestring_ascii k ++ [58; 32] ++ sx)).
    apply encodable_app; [apply encode_basestring_ascii_encodable|].
    apply encodable_app; [repeat constructor | exact Ax].
  - split; reflexivity.
Qed.

Lemma json_dumps_serializable :
  forall v,
  json_serializable v = true -> exists s, json_dumps v = Ok s /\ encodable s.
Proof.
  intros v S. pose proof (json_dumps_spec v) as D. unfold dumps_spec in D.
  destruct (json_dumps v) as [s|e].
  - exists s. split; [reflexivity|]. apply D.
  - destruct D as [_ D]. congruence.
Qed.

Lemma json_dumps_not_serializable :
  forall v, json_serializable v = false -> json_dumps v = Raise TypeError.
Proof.
  intros v S. pose proof (json_dumps_spec v) as D. unfold dumps_spec in D.
  destruct (json_dumps v) as [s|e].
  - destruct D as [D _]. congruence.
  - destruct D as [-> _]. reflexivity.
Qed.

(** ** The decoder: the fuel it is given is enough *)

Ltac break_match H :=
  match type of H with
  | context [match ?x with _ => _ end] => destruct x eqn:?
  end.

Lemma skip_ws_length :
  forall s, (List.length (skip_ws s) <= List.length s)%nat.
Proof.
  induction s as [|c r IH]; simpl; [lia|].
  destruct (is_ws c); simpl; lia.
Qed.

Lemma push_char_some :
  forall c x t rest,
  push_char c x = Some (t, rest) -> exists t', x = Some (t', rest).
Proof.
  intros c [[t' rest']|] t rest H; simpl in H; [|discriminate].
  inversion H; subst. exists t'. reflexivity.
Qed.

Lemma scanstring_length_bounded :
  forall n s t rest,
  (List.length s <= n)%nat ->
  scanstring s = Some (t, rest) ->
  (List.length rest < List.length s)%nat.
Proof.
  induction n as [|n IH]; intros s t rest L H.
  - destruct s; simpl in *; [discriminate|lia].
  - destruct s as [|c r]; simpl in H; [discriminate|].
    repeat (break_match H; try discriminate);
      try (inversion H; subst; simpl in *; lia);
      subst;
      apply push_char_some in H; destruct H as [t' H];
      apply IH in H; simpl in *; lia.
Qed.

Lemma scanstring_length :
  forall s t rest,
  scanstring s = Some (t, rest) -> (List.length rest < List.length s)%nat.
Proof.
  intros s t rest. apply (scanstring_length_bounded (List.length s)). lia.
Qed.

Lemma span_digits_length :
  forall s ds rest,
  span_digits s = (ds, rest) -> (List.length rest <= List.length s)%nat.
Proof.
  induction s as [|c r IH]; simpl; intros ds rest H.
  - inversion H; subst. simpl. lia.
  - destruct (is_digit c).
    + destruct (span_digits r) as [ds' rest'] eqn:E.
      inversion H; subst. specialize (IH _ _ eq_refl). lia.
    + inversion H; subst. simpl. lia.
Qed.

Lemma strip_prefix_length :
  forall p s rest,
  strip_prefix p s = Some rest ->
  List.length s = (List.length p + List.length rest)%nat.
Proof.
  induction p as [|c p IH]; simpl; intros s rest H.
  - inversion H; subst. reflexivity.
  - destruct s as [|d s']; [discriminate|].
    destruct (c =? d); [|discriminate].
    simpl. rewrite (IH _ _ H). reflexivity.
Qed.

Lemma scan_sign_length :
  forall s sign rest,
  scan_sign s = (sign, rest) -> (List.length rest <= List.length s)%nat.
Proof.
  intros [|c r] sign rest H; simpl in H.
  - inversion H; subst. simpl. lia.
  - destruct (c =? 45); inversion H; subst; simpl; lia.
Qed.

Lemma scan_int_part_length :
  forall s integer rest,
  scan_int_part s = Some (integer, rest) ->
  (List.length rest < List.length s)%nat.
Proof.
  intros [|c r] integer rest H; simpl in H; [discriminate|].
  destruct (c =? 48).
  - inversion H; subst. simpl. lia.
  - destruct (in_range 49 57 c); [|discriminate].
    destruct (span_digits r) as [ds rest'] eqn:E.
    inversion H; subst. apply span_digits_length in E. simpl. lia.
Qed.

Lemma scan_frac_length :
  forall s frac rest,
  scan_frac s = (frac, rest) -> (List.length rest <= List.length s)%nat.
Proof.
  intros [|d t] frac rest H; simpl in H.
  - inversion H; subst. simpl. lia.
  - destruct (d =? 46).
    + destruct (span_digits t) as [fd rest'] eqn:E.
      apply span_digits_length in E.
      destruct fd; inversion H; subst; simpl; lia.
    + inversion H; subst. simpl. lia.
Qed.

Lemma scan_exp_length :
  forall s exp rest,
  scan_exp s = (exp, rest) -> (List.length rest <= List.length s)%nat.
Proof.
  intros [|e t] exp rest H; simpl in H.
  - inversion H; subst. simpl. lia.
  - destruct ((e =? 101) || (e =? 69)).
    + destruct t as [|g t2].
      * simpl in H. inversion H; subst. simpl. lia.
      * destruct ((g =? 43) || (g =? 45)).
        -- destruct (span_digits t2) as [ed rest'] eqn:E.
           apply span_digits_length in E.
           destruct ed; inversion H; subst; simpl; lia.
        -- destruct (span_digits (g :: t2)) as [ed rest'] eqn:E.
           apply span_digits_length in E.
           destruct ed; inversion H; subst; simpl in *; lia.
    + inversion H; subst. simpl. lia.
Qed.

Section Decoder_fuel.

Variable float_repr_of_literal : pystr -> string.

Lemma match_number_length :
  forall s v rest,
  match_number float_repr_of_literal s = Some (v, rest) ->
  (List.length rest < List.length s)%nat.
Proof.
  intros s v rest H. unfold match_number in H.
  destruct (scan_sign s) as [sign s1] eqn:E1.
  destruct (scan_int_part s1) as [[integer r1]|] eqn:E2; [|discriminate].
  destruct (scan_frac r1) as [frac r2] eqn:E3.
  destruct (scan_exp r2) as [exp r3] eqn:E4.
  apply scan_sign_length in E1. apply scan_int_part_length in E2.
  apply scan_frac_length in E3. apply scan_exp_length in E4.
  destruct frac; destruct exp; inversion H; subst; lia.
Qed.

Lemma scan_scalar_length :
  forall s v rest,
  scan_scalar float_repr_of_literal s = Parsed v rest ->
  (List.length rest < List.length s)%nat.
Proof.
  intros s v rest H. unfold scan_scalar in H.
  repeat match type of H with
         | context [strip_prefix ?p s] =>
             let E := fresh "E" in
             destruct (strip_prefix p s) eqn:E;
             [ apply strip_prefix_length in E; inversion H; subst;
               simpl in E; lia | clear E ]
         | context [match_number float_repr_of_literal s] =>
             let E := fresh "E" in
             destruct (match_number float_repr_of_literal s) as [[w r]|] eqn:E;
             [ apply match_number_length in E; inversion H; subst; exact E
             | clear E ]
         end.
  discriminate H.
Qed.

Lemma scan_scalar_not_too_deep :
  forall s, scan_scalar float_repr_of_literal s <> TooDeep.
Proof.
  intros s. unfold scan_scalar.
  repeat match goal with
         | |- context [match ?x with _ => _ end] => destruct x
         end; discriminate.
Qed.

Lemma scan_fuel :
  forall n,
  (forall s, (2 * List.length s < n)%nat ->
             enough_fuel (scan_once float_repr_of_literal n s) s)
  /\ (forall s acc, (2 * List.length s + 2 <= n)%nat ->
                    enough_fuel (parse_members float_repr_of_literal n s acc) s)
  /\ (forall s acc, (2 * List.length s + 2 <= n)%nat ->
                    enough_fuel (parse_elems float_repr_of_literal n s acc) s).
Proof.
  induction n as [|n [IHscan [IHmembers IHelems]]].
  - repeat split; intros; lia.
  - split; [|split].
    + intros s L. destruct s as [|c r]; simpl.
      * split; [discriminate|intros; discriminate].
      * destruct (c =? 34).
        { destruct (scanstring r) as [[str rest]|] eqn:E.
          - apply scanstring_length in E.
            split; [discriminate|]. intros v rest' H. inversion H; subst.
            simpl. lia.
          - split; [discriminate|intros; discriminate]. }
        destruct (c =? 123).
        { pose proof (skip_ws_length r) as W.
          destruct (skip_ws r) as [|d r'] eqn:E.
          - split; [discriminate|intros; discriminate].
          - destruct (d =? 125).
            + split; [discriminate|]. intros v rest' H. inversion H; subst.
              simpl in *. lia.
            + destruct (IHmembers (d :: r') []) as [A B]; [simpl in *; lia|].
              split; [exact A|]. intros v rest' H. apply B in H.
              simpl in *. lia. }
        destruct (c =? 91).
        { pose proof (skip_ws_length r) as W.
          destruct (skip_ws r) as [|d r'] eqn:E.
          - split; [discriminate|intros; discriminate].
          - destruct (d =? 93).
            + split; [discriminate|]. intros v rest' H. inversion H; subst.
              simpl in *. lia.
            + destruct (IHelems (d :: r') []) as [A B]; [simpl in *; lia|].
              split; [exact A|]. intros v rest' H. apply B in H.
              simpl in *. lia. }
        split; [apply scan_scalar_not_too_deep|].
        intros v rest H. apply scan_scalar_length in H. exact H.
    + intros s acc L. destruct s as [|c r]; simpl.
      * split; [discriminate|intros; discriminate].
      * destruct (c =? 34); [|split; [discriminate|intros; discriminate]].
        destruct (scanstring r) as [[key r1]|] eqn:E1;
          [|split; [discriminate|intros; discriminate]].
        apply scanstring_length in E1.
        pose proof (skip_ws_length r1) as W1.
        destruct (skip_ws r1) as [|d r2] eqn:E2;
          [split; [discriminate|intros; discriminate]|].
        destruct (d =? 58); [|split; [discriminate|intros; discriminate]].
        pose proof (skip_ws_length r2) as W2.
        destruct (IHscan (skip_ws r2)) as [A B]; [simpl in *; lia|].
        destruct (scan_once float_repr_of_literal n (skip_ws r2))
          as [v r3| |] eqn:E3.
        -- specialize (B v r3 eq_refl).
           pose proof (skip_ws_length r3) as W3.
           destruct (skip_ws r3) as [|e r4] eqn:E4;
             [split; [discriminate|intros; discriminate]|].
           destruct (e =? 125).
           ++ split; [discriminate|]. intros v' rest' H. inversion H; subst.
              simpl in *. lia.
           ++ destruct (e =? 44); [|split; [discriminate|intros; discriminate]].
              pose proof (skip_ws_length r4) as W4.
              destruct (IHmembers (skip_ws r4) (dict_set acc key v)) as [A' B'];
                [simpl in *; lia|].
              split; [exact A'|]. intros v' rest' H. apply B' in H.
              simpl in *. lia.
        -- split; [discriminate|intros; discriminate].
        -- exfalso. apply A. reflexivity.
    + intros s acc L. simpl.
      destruct (IHscan s) as [A B]; [lia|].
      destruct (scan_once float_repr_of_literal n s) as [v r1| |] eqn:E1.
      * specialize (B v r1 eq_refl).
        pose proof (skip_ws_length r1) as W1.
        destruct (skip_ws r1) as [|e r2] eqn:E2;
          [split; [discriminate|intros; discriminate]|].
        destruct (e =? 93).
        -- split; [discriminate|]. intros v' rest' H. inversion H; subst.
           simpl in *. lia.
        -- destruct (e =? 44); [|split; [discriminate|intros; discriminate]].
           pose proof (skip_ws_length r2) as W2.
           destruct (IHelems (skip_ws r2) (acc ++ [v])) as [A' B'];
             [simpl in *; lia|].
           split; [exact A'|]. intros v' rest' H. apply B' in H.
           simpl in *. lia.
      * split; [discriminate|intros; discriminate].
      * exfalso. apply A. reflexivity.
Qed.

(** [json.loads] on text ends with a value or with JSONDecodeError: the
    fuel of [decode] never runs out. *)
Lemma json_loads_total :
  forall s,
  (exists v, json_loads float_repr_of_literal s = Ok v)
  \/ json_loads float_repr_of_literal s = Raise JSONDecodeError.
Proof.
  intros s.
  assert (D : (exists v, decode float_repr_of_literal s = Ok v)
              \/ decode float_repr_of_literal s = Raise JSONDecodeError).
  { unfold decode.
    destruct (proj1 (scan_fuel (S (2 * List.length s))) (skip_ws s)) as [A _].
    { pose proof (skip_ws_length s). lia. }
    destruct (scan_once float_repr_of_literal (S (2 * List.length s)) (skip_ws s))
      as [v rest| |].
    - destruct (skip_ws rest); [left; exists v; reflexivity | right; reflexivity].
    - right. reflexivity.
    - exfalso. apply A. reflexivity. }
  unfold json_loads. destruct s as [|c r]; [exact D|].
  destruct (c =? 65279); [right; reflexivity | exact D].
Qed.

End Decoder_fuel.

(** ** UTF-8: decoding undoes encoding *)

Lemma to_N_byte_of_N : forall n, n < 256 -> Byte.to_N (byte_of_N n) = n.
Proof.
  intros n H. unfold byte_of_N. destruct (Byte.of_N n) as [b|] eqn:E.
  - apply Byte.to_of_N. exact E.
  - apply Byte.of_N_None_iff in E. lia.
Qed.

Ltac div_mod_lia := zify; Z.to_euclidean_division_equations; lia.

Lemma in_range_true : forall lo hi n, lo <= n -> n <= hi -> in_range lo hi n = true.
Proof.
  intros lo hi n L H. unfold in_range. apply andb_true_intro.
  split; apply N.leb_le; assumption.
Qed.

Lemma in_range_false : forall lo hi n, n < lo \/ hi < n -> in_range lo hi n = false.
Proof.
  intros lo hi n [H|H]; unfold in_range.
  - apply andb_false_intro1. apply N.leb_gt. exact H.
  - apply andb_false_intro2. apply N.leb_gt. exact H.
Qed.

Lemma utf8_decode_encode_char :
  forall c, is_scalar c = true ->
  exists bs, utf8_encode_char c = Some bs
             /\ forall rest, utf8_decode (bs ++ rest)
                             = option_map (cons c) (utf8_decode rest).
Proof.
  intros c S. unfold utf8_encode_char.
  assert (V : c < 0xD800 \/ (0xE000 <= c /\ c <= 0x10FFFF)).
  { unfold is_scalar, in_range in S. apply orb_prop in S. destruct S as [S|S].
    - left. apply N.ltb_lt. exact S.
    - right. apply andb_prop in S. destruct S as [A B].
      split; apply N.leb_le; assumption. }
  clear S.
  destruct (c <? 128) eqn:B1.
  { apply N.ltb_lt in B1. eexists. split; [reflexivity|]. intros rest.
    cbn [app utf8_decode]. rewrite to_N_byte_of_N by lia.
    assert (E : (c <? 128) = true) by (apply N.ltb_lt; exact B1).
    rewrite E. reflexivity. }
  apply N.ltb_ge in B1.
  destruct (c <? 2048) eqn:B2.
  { apply N.ltb_lt in B2. eexists. split; [reflexivity|]. intros rest.
    cbn [app utf8_decode].
    rewrite !to_N_byte_of_N by div_mod_lia.
    assert (E1 : (192 + c / 64 <? 128) = false) by (apply N.ltb_ge; div_mod_lia).
    rewrite E1.
    rewrite (in_range_true 194 223) by div_mod_lia.
    rewrite (in_range_true 128 191) by div_mod_lia.
    f_equal. f_equal. div_mod_lia. }
  apply N.ltb_ge in B2.
  assert (NS : in_range 55296 57343 c = false) by (apply in_range_false; lia).
  rewrite NS.
  destruct (c <? 65536) eqn:B3.
  { apply N.ltb_lt in B3. eexists. split; [reflexivity|]. intros rest.
    cbn [app utf8_decode].
    rewrite !to_N_byte_of_N by div_mod_lia.
    assert (E1 : (224 + c / 4096 <? 128) = false) by (apply N.ltb_ge; div_mod_lia).
    rewrite E1.
    rewrite (in_range_false 194 223) by (right; div_mod_lia).
    rewrite (in_range_true 224 239) by div_mod_lia.
    rewrite (in_range_true 128 191 (128 + c mod 64)) by div_mod_lia.
    assert (R : in_range (if 224 + c / 4096 =? 224 then 160 else 128)
                         (if 224 + c / 4096 =? 237 then 159 else 191)
                         (128 + (c / 64) mod 64) = true).
    { apply in_range_true.
      - destruct (224 + c / 4096 =? 224) eqn:Q.
        + apply N.eqb_eq in Q. div_mod_lia.
        + div_mod_lia.
      - destruct (224 + c / 4096 =? 237) eqn:Q.
        + apply N.eqb_eq in Q. div_mod_lia.
        + div_mod_lia. }
    rewrite R. cbn [andb]. f_equal. f_equal. div_mod_lia. }
  apply N.ltb_ge in B3.
  eexists. split; [reflexivity|]. intros rest.
  cbn [app utf8_decode].
  rewrite !to_N_byte_of_N by div_mod_lia.
  assert (E1 : (240 + c / 262144 <? 128) = false) by (apply N.ltb_ge; div_mod_lia).
  rewrite E1.
  rewrite (in_range_false 194 223) by (right; div_mod_lia).
  rewrite (in_range_false 224 239) by (right; div_mod_lia).
  rewrite (in_range_true 240 244) by div_mod_lia.
  rewrite (in_range_true 128 191 (128 + c mod 64)) by div_mod_lia.
  rewrite (in_range_true 128 191 (128 + (c / 64) mod 64)) by div_mod_lia.
  assert (R : in_range (if 240 + c / 262144 =? 240 then 144 else 128)
                       (if 240 + c / 262144 =? 244 then 143 else 191)
                       (128 + (c / 4096) mod 64) = true).
  { apply in_range_true.
    - destruct (240 + c / 262144 =? 240) eqn:Q.
      + apply N.eqb_eq in Q. div_mod_lia.
      + div_mod_lia.
    - destruct (240 + c / 262144 =? 244) eqn:Q.
      + apply N.eqb_eq in Q. div_mod_lia.
      + div_mod_lia. }
  rewrite R. cbn [andb]. f_equal. f_equal. div_mod_lia.
Qed.

Lemma utf8_round_trip :
  forall s, unicode_text s ->
  exists bs, utf8_encode s = Some bs /\ utf8_decode bs = Some s.
Proof.
  intros s U. induction U as [|c r Hc Hr [bs [E D]]].
  - exists []. split; reflexivity.
  - destruct (utf8_decode_encode_char c Hc) as [cs [Ec Dc]].
    exists (cs ++ bs). cbn [utf8_encode]. rewrite Ec, E.
    split; [reflexivity|]. rewrite Dc, D. reflexivity.
Qed.

Lemma encodable_unicode_text : forall s, encodable s -> unicode_text s.
Proof.
  intros s E. unfold encodable, unicode_text in *.
  apply Forall_forall. intros c I. rewrite Forall_forall in E.
  unfold is_scalar. apply orb_true_intro. left. apply N.ltb_lt. apply E. exact I.
Qed.

(** Step 5 on a serializable record cannot fail, and fails with TypeError
    on any other. *)
Lemma serialize_ok :
  forall v,
  json_serializable v = true ->
  exists text body,
    json_dumps v = Ok text
    /\ utf8_encode text = Some body
    /\ utf8_decode body = Some text
    /\ serialize v = Ok body.
Proof.
  intros v S. destruct (json_dumps_serializable v S) as [text [D A]].
  destruct (utf8_round_trip text (encodable_unicode_text text A)) as [body [E U]].
  exists text, body. unfold serialize, str_encode. rewrite D, E.
  repeat split; assumption.
Qed.

Lemma serialize_not_serializable :
  forall v, json_serializable v = false -> serialize v = Raise TypeError.
Proof.
  intros v S. unfold serialize. rewrite (json_dumps_not_serializable v S).
  reflexivity.
Qed.

Lemma record_serializable :
  forall a b c,
  json_serializable (message_payload a b c)
  = json_serializable a && json_serializable b && json_serializable c.
Proof.
  intros a b c. simpl. rewrite andb_true_r, andb_assoc. reflexivity.
Qed.

(** ** Strings: scanning undoes escaping *)

Lemma hex_val_hex_digit : forall d, d < 16 -> hex_val (hex_digit d) = Some d.
Proof.
  intros d H.
  assert (C : d = 0 \/ d = 1 \/ d = 2 \/ d = 3 \/ d = 4 \/ d = 5 \/ d = 6 \/ d = 7
              \/ d = 8 \/ d = 9 \/ d = 10 \/ d = 11 \/ d = 12 \/ d = 13 \/ d = 14
              \/ d = 15) by lia.
  repeat (destruct C as [C|C]; [subst d; reflexivity|]). subst d. reflexivity.
Qed.

Lemma hex4_u_escape :
  forall c, c < 0x10000 ->
  hex4 (hex_digit ((c / 0x1000) mod 16)) (hex_digit ((c / 0x100) mod 16))
       (hex_digit ((c / 0x10) mod 16)) (hex_digit (c mod 16)) = Some c.
Proof.
  intros c H. unfold hex4.
  rewrite !hex_val_hex_digit by (apply N.mod_lt; discriminate).
  f_equal.
  zify. Z.to_euclidean_division_equations. lia.
Qed.

Lemma lor_low_bits : forall a b, b < 1024 -> N.lor (a * 1024) b = a * 1024 + b.
Proof.
  intros a b H.
  assert (Z : N.land (a * 1024) b = 0).
  { apply N.bits_inj_0. intros i. rewrite N.land_spec.
    destruct (N.lt_ge_cases i 10) as [L|G].
    - change 1024 with (2 ^ 10). rewrite (N.mul_pow2_bits_low a 10 i L).
      reflexivity.
    - destruct (N.eq_dec b 0) as [->|NZ].
      + rewrite N.bits_0. apply andb_false_r.
      + rewrite (N.bits_above_log2 b i); [apply andb_false_r|].
        apply N.lt_le_trans with 10; [|exact G].
        apply N.log2_lt_pow2; [lia|exact H]. }
  rewrite <- (N.lxor_lor _ _ Z). symmetry. apply N.add_nocarry_lxor. exact Z.
Qed.

Lemma surrogates_of_astral :
  forall c, 0x10000 <= c -> c <= 0x10FFFF ->
  let n := c - 0x10000 in
  N.lor 0xD800 (N.land (N.shiftr n 10) 0x3FF) = 0xD800 + n / 1024
  /\ N.lor 0xDC00 (N.land n 0x3FF) = 0xDC00 + n mod 1024.
Proof.
  intros c Lo Hi n.
  assert (B : n < 1024 * 1024) by (subst n; lia).
  change 0x3FF with (N.ones 10). rewrite !N.land_ones, N.shiftr_div_pow2.
  change (2 ^ 10) with 1024.
  assert (Q : n / 1024 < 1024) by (apply N.Div0.div_lt_upper_bound; exact B).
  rewrite (N.mod_small _ _ Q).
  change 0xD800 with (54 * 1024). change 0xDC00 with (55 * 1024).
  split; apply lor_low_bits; [exact Q|]. apply N.mod_lt. discriminate.
Qed.

Lemma join_surrogates_of_astral :
  forall c, 0x10000 <= c -> c <= 0x10FFFF ->
  let n := c - 0x10000 in
  join_surrogates (0xD800 + n / 1024) (0xDC00 + n mod 1024) = c.
Proof.
  intros c Lo Hi n. unfold join_surrogates.
  rewrite N.shiftl_mul_pow2. change (2 ^ 10) with 1024.
  assert (E : forall k x, k + x - k = x) by (intros; lia).
  rewrite !E.
  rewrite lor_low_bits by (apply N.mod_lt; discriminate).
  rewrite N.mul_comm, <- N.div_mod by discriminate. subst n. lia.
Qed.

Lemma scanstring_u_escape :
  forall c rest,
  c < 0x10000 -> in_range 0xD800 0xDBFF c = false ->
  scanstring (u_escape c ++ rest) = push_char c (scanstring rest).
Proof.
  intros c rest H S. unfold u_escape.
  change (scanstring (92 :: 117 :: hex_digit ((c / 0x1000) mod 16)
                         :: hex_digit ((c / 0x100) mod 16)
                         :: hex_digit ((c / 0x10) mod 16)
                         :: hex_digit (c mod 16) :: rest)
          = push_char c (scanstring rest)).
  cbn [scanstring]. 
  change (92 =? 34) with false. change (92 =? 92) with true.
  change (117 =? 117) with true. cbv iota.
  rewrite (hex4_u_escape c H). rewrite S. reflexivity.
Qed.

Lemma scanstring_surrogate_pair :
  forall hi lo rest,
  in_range 0xD800 0xDBFF hi = true -> in_range 0xDC00 0xDFFF lo = true ->
  scanstring (u_escape hi ++ u_escape lo ++ rest)
  = push_char (join_surrogates hi lo) (scanstring rest).
Proof.
  intros hi lo rest H L.
  assert (Hh : hi < 0x10000).
  { unfold in_range in H. apply andb_prop in H. destruct H as [_ H].
    apply N.leb_le in H. lia. }
  assert (Hl : lo < 0x10000).
  { unfold in_range in L. apply andb_prop in L. destruct L as [_ L].
    apply N.leb_le in L. lia. }
  unfold u_escape.
  change (scanstring (92 :: 117 :: hex_digit ((hi / 0x1000) mod 16)
                         :: hex_digit ((hi / 0x100) mod 16)
                         :: hex_digit ((hi / 0x10) mod 16)
                         :: hex_digit (hi mod 16)
                         :: 92 :: 117 :: hex_digit ((lo / 0x1000) mod 16)
                         :: hex_digit ((lo / 0x100) mod 16)
                         :: hex_digit ((lo / 0x10) mod 16)
                         :: hex_digit (lo mod 16) :: rest)
          = push_char (join_surrogates hi lo) (scanstring rest)).
  cbn [scanstring].
  change (92 =? 34) with false. change (92 =? 92) with true.
  change (117 =? 117) with true. cbv iota.
  rewrite (hex4_u_escape hi Hh). rewrite H. cbn [andb].
  rewrite (hex4_u_escape lo Hl). rewrite L. reflexivity.
Qed.

Lemma scanstring_escape_char :
  forall c rest,
  is_scalar c = true ->
  scanstring (escape_char c ++ rest) = push_char c (scanstring rest).
Proof.
  intros c rest S. unfold escape_char.
  destruct (c =? 34) eqn:E1; [apply N.eqb_eq in E1; subst; reflexivity|].
  destruct (c =? 92) eqn:E2; [apply N.eqb_eq in E2; subst; reflexivity|].
  destruct (c =? 10) eqn:E3; [apply N.eqb_eq in E3; subst; reflexivity|].
  destruct (c =? 13) eqn:E4; [apply N.eqb_eq in E4; subst; reflexivity|].
  destruct (c =? 9) eqn:E5; [apply N.eqb_eq in E5; subst; reflexivity|].
  destruct (c =? 12) eqn:E6; [apply N.eqb_eq in E6; subst; reflexivity|].
  destruct (c =? 8) eqn:E7; [apply N.eqb_eq in E7; subst; reflexivity|].
  destruct (in_range 32 126 c) eqn:P.
  { change (scanstring (c :: rest) = push_char c (scanstring rest)).
    cbn [scanstring]. rewrite E1, E2.
    unfold in_range in P. apply andb_prop in P. destruct P as [P _].
    apply N.leb_le in P.
    assert (L : (c <? 32) = false) by (apply N.ltb_ge; exact P).
    rewrite L. reflexivity. }
  unfold is_scalar, in_range in S.
  destruct (c <? 65536) eqn:B.
  - apply N.ltb_lt in B. apply scanstring_u_escape; [exact B|].
    unfold in_range. 
    destruct (c <? 55296) eqn:Lo.
    + apply N.ltb_lt in Lo. apply andb_false_intro1. apply N.leb_gt. exact Lo.
    + simpl in S. apply andb_prop in S. destruct S as [S _].
      apply N.leb_le in S. apply andb_false_intro2. apply N.leb_gt. lia.
  - apply N.ltb_ge in B.
    assert (Lo : (c <? 55296) = false) by (apply N.ltb_ge; lia).
    rewrite Lo in S. simpl in S. apply andb_prop in S. destruct S as [_ S].
    apply N.leb_le in S.
    destruct (surrogates_of_astral c B S) as [Hh Hl]. cbv zeta in Hh, Hl.
    rewrite Hh, Hl. rewrite <- app_assoc. clear Hh Hl.
    assert (M : (c - 65536) mod 1024 < 1024) by (apply N.mod_lt; discriminate).
    assert (Q : (c - 65536) / 1024 < 1024)
      by (apply N.Div0.div_lt_upper_bound; lia).
    pose proof (join_surrogates_of_astral c B S) as J. cbv zeta in J.
    revert M Q J.
    generalize ((c - 65536) / 1024). generalize ((c - 65536) mod 1024).
    intros m q M Q J.
    rewrite scanstring_surrogate_pair.
    + rewrite J. reflexivity.
    + unfold in_range. apply andb_true_intro. split; apply N.leb_le; lia.
    + unfold in_range. apply andb_true_intro. split; apply N.leb_le; lia.
Qed.

Lemma scanstring_escaped :
  forall s rest,
  unicode_text s ->
  scanstring (flat_map escape_char s ++ 34 :: rest) = Some (s, rest).
Proof.
  intros s rest U. induction U as [|c r Hc Hr IH]; simpl.
  - reflexivity.
  - rewrite <- app_assoc, (scanstring_escape_char c _ Hc), IH. reflexivity.
Qed.

(** ** The record: loading undoes dumping *)

Section Round_trip.

Variable fr : pystr -> string.

Lemma scan_more_fuel :
  forall n,
  (forall s v rest, scan_once fr n s = Parsed v rest ->
     forall m, (n <= m)%nat -> scan_once fr m s = Parsed v rest)
  /\ (forall s acc v rest, parse_members fr n s acc = Parsed v rest ->
        forall m, (n <= m)%nat -> parse_members fr m s acc = Parsed v rest)
  /\ (forall s acc v rest, parse_elems fr n s acc = Parsed v rest ->
        forall m, (n <= m)%nat -> parse_elems fr m s acc = Parsed v rest).
Proof.
  induction n as [|n [IHscan [IHmembers IHelems]]].
  - repeat split; intros; discriminate.
  - split; [|split].
    + intros s v rest H m L. destruct m as [|m]; [lia|].
      assert (L' : (n <= m)%nat) by lia.
      destruct s as [|c r]; simpl in H |- *; [discriminate|].
      destruct (c =? 34); [exact H|].
      destruct (c =? 123).
      { destruct (skip_ws r) as [|d r']; [discriminate|].
        destruct (d =? 125); [exact H|]. apply IHmembers; assumption. }
      destruct (c =? 91).
      { destruct (skip_ws r) as [|d r']; [discriminate|].
        destruct (d =? 93); [exact H|]. apply IHelems; assumption. }
      exact H.
    + intros s acc v rest H m L. destruct m as [|m]; [lia|].
      assert (L' : (n <= m)%nat) by lia.
      destruct s as [|c r]; simpl in H |- *; [discriminate|].
      destruct (c =? 34); [|discriminate].
      destruct (scanstring r) as [[key r1]|]; [|discriminate].
      destruct (skip_ws r1) as [|d r2]; [discriminate|].
      destruct (d =? 58); [|discriminate].
      destruct (scan_once fr n (skip_ws r2)) as [w r3| |] eqn:E;
        try discriminate.
      rewrite (IHscan _ _ _ E m L').
      destruct (skip_ws r3) as [|e r4]; [discriminate|].
      destruct (e =? 125); [exact H|].
      destruct (e =? 44); [|discriminate].
      apply IHmembers; assumption.
    + intros s acc v rest H m L. destruct m as [|m]; [lia|].
      assert (L' : (n <= m)%nat) by lia.
      simpl in H |- *.
      destruct (scan_once fr n s) as [w r1| |] eqn:E; try discriminate.
      rewrite (IHscan _ _ _ E m L').
      destruct (skip_ws r1) as [|e r2]; [discriminate|].
      destruct (e =? 93); [exact H|].
      destruct (e =? 44); [|discriminate].
      apply IHelems; assumption.
Qed.

Lemma scan_text_or_null :
  forall v text rest n,
  text_or_null v -> json_dumps v = Ok text ->
  skip_ws (text ++ rest) = text ++ rest
  /\ scan_once fr (S n) (text ++ rest) = Parsed v rest.
Proof.
  intros v text rest n [->|[s [-> U]]] D; simpl in D; inversion D; subst text.
  - split; reflexivity.
  - unfold encode_basestring_ascii.
    change ((34 :: flat_map escape_char s ++ [34]) ++ rest)
      with (34 :: (flat_map escape_char s ++ [34]) ++ rest).
    rewrite <- app_assoc. change ([34] ++ rest) with (34 :: rest).
    split; [reflexivity|].
    cbn [scan_once]. change (34 =? 34) with true. cbv iota.
    rewrite (scanstring_escaped s rest U). reflexivity.
Qed.

Lemma scan_key :
  forall key rest,
  unicode_text key ->
  scanstring (flat_map escape_char key ++ 34 :: 58 :: 32 :: rest)
  = Some (key, 58 :: 32 :: rest).
Proof.
  intros key rest U. apply scanstring_escaped. exact U.
Qed.

Lemma parse_members_unfold :
  forall n c r acc,
  parse_members fr (S n) (c :: r) acc
  = if c =? 34 then
      match scanstring r with
      | None => Malformed
      | Some (key, r1) =>
          match skip_ws r1 with
          | [] => Malformed
          | d :: r2 =>
              if d =? 58 then
                match scan_once fr n (skip_ws r2) with
                | Parsed v r3 =>
                    match skip_ws r3 with
                    | [] => Malformed
                    | e :: r4 =>
                        if e =? 125 then Parsed (PyDict (dict_set acc key v)) r4
                        else if e =? 44
                             then parse_members fr n (skip_ws r4)
                                                (dict_set acc key v)
                             else Malformed
                    end
                | Malformed => Malformed
                | TooDeep => TooDeep
                end
              else Malformed
          end
      end
    else Malformed.
Proof.
  reflexivity.
Qed.

Lemma parse_member :
  forall n key v text tail acc,
  unicode_text key -> text_or_null v -> json_dumps v = Ok text ->
  parse_members fr (S (S n))
    (34 :: flat_map escape_char key ++ 34 :: 58 :: 32 :: text ++ tail) acc
  = match skip_ws tail with
    | [] => Malformed
    | e :: r4 =>
        if e =? 125 then Parsed (PyDict (dict_set acc key v)) r4
        else if e =? 44
             then parse_members fr (S n) (skip_ws r4) (dict_set acc key v)
             else Malformed
    end.
Proof.
  intros n key v text tail acc U T D.
  destruct (scan_text_or_null v text tail n T D) as [W P].
  rewrite parse_members_unfold. change (34 =? 34) with true. cbv iota.
  rewrite (scan_key key (text ++ tail) U).
  change (skip_ws (58 :: 32 :: text ++ tail)) with (58 :: 32 :: text ++ tail).
  cbv iota. change (58 =? 58) with true. cbv iota.
  change (skip_ws (32 :: text ++ tail)) with (skip_ws (text ++ tail)).
  rewrite W, P. reflexivity.
Qed.

(** The text of the record parses back to the record. *)
Lemma record_round_trip :
  forall a b c,
  text_or_null a -> text_or_null b -> text_or_null c ->
  exists text,
    json_dumps (message_payload a b c) = Ok text
    /\ json_loads fr text = Ok (message_payload a b c).
Proof.
  intros a b c Ta Tb Tc.
  assert (Da : exists ta, json_dumps a = Ok ta).
  { destruct Ta as [->|[s [-> _]]]; eexists; reflexivity. }
  assert (Db : exists tb, json_dumps b = Ok tb).
  { destruct Tb as [->|[s [-> _]]]; eexists; reflexivity. }
  assert (Dc : exists tc, json_dumps c = Ok tc).
  { destruct Tc as [->|[s [-> _]]]; eexists; reflexivity. }
  destruct Da as [ta Da]. destruct Db as [tb Db]. destruct Dc as [tc Dc].
  set (body :=
         34 :: flat_map escape_char (str_lit "fileName") ++ 34 :: 58 :: 32 :: ta
         ++ 44 :: 32
         :: 34 :: flat_map escape_char (str_lit "fileSize") ++ 34 :: 58 :: 32 :: tb
         ++ 44 :: 32
         :: 34 :: flat_map escape_char (str_lit "fileFormat") ++ 34 :: 58 :: 32 :: tc
         ++ [125]).
  exists (123 :: body).
  assert (E : json_dumps (message_payload a b c) = Ok (123 :: body)).
  { unfold message_payload. cbn [json_dumps map sequence res_map].
    rewrite Da, Db, Dc. cbn [res_map sequence join_sep].
    unfold encode_basestring_ascii. subst body.
    f_equal. f_equal. repeat (simpl; rewrite <- app_assoc). reflexivity. }
  split; [exact E|].
  assert (P : scan_once fr 5 (123 :: body) = Parsed (message_payload a b c) []).
  { subst body. unfold message_payload.
    change (scan_once fr 5 (123 :: ?x)) with (parse_members fr 4 x []).
    rewrite (parse_member 2 (str_lit "fileName") a ta _ [] ); try assumption;
      [|repeat constructor].
    change (skip_ws (44 :: 32 :: ?x)) with (44 :: 32 :: x). cbv iota.
    change (44 =? 125) with false. change (44 =? 44) with true. cbv iota.
    change (skip_ws (32 :: 34 :: ?x)) with (34 :: x).
    rewrite (parse_member 1 (str_lit "fileSize") b tb); try assumption;
      [|repeat constructor].
    change (skip_ws (44 :: 32 :: ?x)) with (44 :: 32 :: x). cbv iota.
    change (44 =? 125) with false. change (44 =? 44) with true. cbv iota.
    change (skip_ws (32 :: 34 :: ?x)) with (34 :: x).
    rewrite (parse_member 0 (str_lit "fileFormat") c tc); try assumption;
      [|repeat constructor].
    reflexivity. }
  unfold json_loads. change (123 =? 65279) with false. cbv iota.
  unfold decode. change (skip_ws (123 :: body)) with (123 :: body).
  rewrite (proj1 (scan_more_fuel 5) _ _ _ P); [reflexivity|].
  simpl. lia.
Qed.

End Round_trip.

(** ** The handler *)

Lemma dict_get_absent :
  forall items key, ~ In key (map fst items) -> dict_get items key = PyNone.
Proof.
  intros items key. induction items as [|[k v] rest IH]; simpl; intros H.
  - reflexivity.
  - unfold pystr_eqb. destruct (list_eq_dec N.eq_dec k key) as [E|E].
    + exfalso. apply H. left. exact E.
    + apply IH. intros I. apply H. right. exact I.
Qed.

Lemma nonempty_mapping_truthy :
  forall items : list (pystr * PyVal), items <> [] -> py_truthy (PyDict items) = true.
Proof.
  intros [|kv rest] H; [exfalso; apply H; reflexivity | reflexivity].
Qed.

Lemma invoke_falsy :
  forall fr g svc cloud_event,
  py_truthy (data cloud_event) = false ->
  invoke fr g svc cloud_event
  = (Ok tt, {| globals := g;
               trace := [Print (LReceived (attributes cloud_event));
                         Print LNoData] |}).
Proof.
  intros fr g svc cloud_event T. apply Run_invoke. apply RunNoData. exact T.
Qed.

Lemma invoke_mapping :
  forall fr g svc attrs items body,
  items <> [] ->
  serialize (record_of items) = Ok body ->
  invoke fr g svc {| attributes := attrs; data := PyDict items |}
  = (Ok tt,
     {| globals := g;
        trace := Print (LReceived attrs) :: field_lines items
                 ++ PublishCall (topic_path g) body
                    :: after_publish (PUBSUB_TOPIC_ID g)
                                     (svc (topic_path g) body) |}).
Proof.
  intros fr g svc attrs items body NE Z.
  apply (Run_invoke fr g svc {| attributes := attrs; data := PyDict items |}).
  apply RunPublished; [apply nonempty_mapping_truthy; exact NE|reflexivity|exact Z].
Qed.

Lemma invoke_mapping_not_serializable :
  forall fr g svc attrs items e,
  items <> [] ->
  serialize (record_of items) = Raise e ->
  invoke fr g svc {| attributes := attrs; data := PyDict items |}
  = (Raise e,
     {| globals := g; trace := Print (LReceived attrs) :: field_lines items |}).
Proof.
  intros fr g svc attrs items e NE Z.
  apply (Run_invoke fr g svc {| attributes := attrs; data := PyDict items |}).
  apply RunNotSerializable; [apply nonempty_mapping_truthy; exact NE|reflexivity|exact Z].
Qed.





Lemma undecodable_nonempty :
  forall b, utf8_decode b = None -> py_truthy (PyBytes b) = true.
Proof.
  intros [|b0 rest] H; [discriminate H | reflexivity].
Qed.

Lemma normalize_fails_json_parsing :
  forall fr data,
  fails_json_parsing fr data -> normalize fr data = Raise JSONDecodeError.
Proof.
  intros fr data F. destruct F as [s L|b s D L]; simpl.
  - exact L.
  - rewrite D. exact L.
Qed.

(** The exceptions of the decode-and-parse step. *)
Lemma normalize_raises :
  forall fr data e,
  normalize fr data = Raise e ->
  e = JSONDecodeError \/ e = UnicodeDecodeError \/ e = TypeError.
Proof.
  intros fr data e H.
  assert (L : forall s, json_loads fr s = Raise e -> e = JSONDecodeError).
  { intros s R. destruct (json_loads_total fr s) as [[v O]|J]; congruence. }
  destruct data; simpl in H; try (inversion H; auto; fail).
  - left. apply (L s). exact H.
  - destruct (utf8_decode b) as [s|].
    + left. apply (L s). exact H.
    + inversion H. auto.
Qed.




Lemma absent_or_empty_falsy :
  forall data, absent_or_empty data -> py_truthy data = false.
Proof.
  intros data A. destruct A; reflexivity.
Qed.



Lemma In_publish_calls :
  forall topic body t,
  In (PublishCall topic body) t -> In (topic, body) (publish_calls t).
Proof.
  intros topic body t. induction t as [|ef t IH]; simpl; [tauto|].
  intros [H|H].
  - subst ef. left. reflexivity.
  - destruct ef; simpl; auto.
Qed.

Lemma after_publish_failed :
  forall topic_id svc topic body e,
  publish_fails svc topic body e ->
  exists before,
    printed (after_publish topic_id (svc topic body)) = before ++ [LPublishFailed e].
Proof.
  intros topic_id svc topic body e [F|[future [F W]]]; rewrite F; simpl.
  - exists []. reflexivity.
  - rewrite W. exists []. reflexivity.
Qed.

(** C5: in every invocation whose publish call fails, be it the call that
    raises or the wait for the acknowledgment, the handler returns
    normally, the last thing it prints is that failure, and the failed
    call is the only publish call of the invocation. *)
Theorem C5_publish_failure_contained :
  forall fr g svc cloud_event topic body e,
  let r := invoke fr g svc cloud_event in
  In (PublishCall topic body) (effects r) ->
  publish_fails svc topic body e ->
  returns_normally r
  /\ publish_calls (effects r) = [(topic, body)]
  /\ exists before, printed (effects r) = before ++ [LPublishFailed e].
Proof.
  intros fr g svc cloud_event topic body e r I F.
  destruct (invoke_run fr g svc cloud_event) as [res [t [E R]]].
  subst r. rewrite E in *. unfold effects, returns_normally in *. simpl in *.
  apply In_publish_calls in I.
  destruct (Run_publish_calls _ _ _ _ _ _ R) as [P|[items [body0 [_ [_ [_ [O P]]]]]]].
  - rewrite P in I. destruct I.
  - rewrite P in I. destruct I as [I|[]]. inversion I; subst.
    split; [reflexivity|]. split; [exact P|].
    destruct R; try discriminate P.
    simpl in P. rewrite after_publish_no_call in P. inversion P; subst.
    destruct (after_publish_failed (PUBSUB_TOPIC_ID g) svc (topic_path g) body e F)
      as [before B].
    exists (LReceived (attributes cloud_event)
            :: printed (field_lines items0) ++ before).
    simpl. rewrite B. reflexivity.
Qed.

Lemma C5_publish_failure_contained_witness :
  returns_normally
    (invoke literal_float_repr sample_globals refusing_service
            {| attributes := []; data := PyBytes jpeg_notification |})
  /\ returns_normally
       (invoke literal_float_repr sample_globals silent_service
               {| attributes := []; data := PyBytes jpeg_notification |}).
Proof.
  split.
  - apply (C5_publish_failure_contained
             literal_float_repr sample_globals refusing_service
             {| attributes := []; data := PyBytes jpeg_notification |}
             (str_lit "projects/demo/topics/uploads")
             (map byte_of_N jpeg_summary_text)
             (OtherException "ServiceUnavailable")).
    + vm_compute. tauto.
    + left. reflexivity.
  - apply (C5_publish_failure_contained
             literal_float_repr sample_globals silent_service
             {| attributes := []; data := PyBytes jpeg_notification |}
             (str_lit "projects/demo/topics/uploads")
             (map byte_of_N jpeg_summary_text)
             (OtherException "DeadlineExceeded")).
    + vm_compute. tauto.
    + right. eexists. split; reflexivity.
Defined.



(** C7: on every input, whatever the service does and whichever branch is
    taken, an invocation makes at most one publish call. *)
Theorem C7_at_most_one_publish :
  forall fr g svc cloud_event,
  (List.length (publish_calls (effects (invoke fr g svc cloud_event))) <= 1)%nat.
Proof.
  intros fr g svc cloud_event.
  destruct (invoke_run fr g svc cloud_event) as [res [t [E R]]].
  rewrite E. unfold effects. simpl.
  destruct (Run_publish_calls _ _ _ _ _ _ R) as [P|[items [body [_ [_ [_ [_ P]]]]]]];
    rewrite P; simpl; lia.
Qed.

(** C8: an invocation leaves the module's globals ([PROJECT_ID],
    [PUBSUB_TOPIC_ID], [publisher], [topic_path]) as it found them, on every
    input and however it ends; and since they are all the state there is,
    an invocation that follows another runs exactly as it would have run
    first. *)
Theorem C8_globals_unchanged :
  forall fr g svc cloud_event,
  let g' := globals (snd (invoke fr g svc cloud_event)) in
  g' = g
  /\ PROJECT_ID g' = PROJECT_ID g
  /\ PUBSUB_TOPIC_ID g' = PUBSUB_TOPIC_ID g
  /\ publisher g' = publisher g
  /\ topic_path g' = topic_path g
  /\ forall svc' next_event,
       invoke fr g' svc' next_event = invoke fr g svc' next_event.
Proof.
  intros fr g svc cloud_event g'.
  destruct (invoke_run fr g svc cloud_event) as [res [t [E _]]].
  assert (G : g' = g) by (subst g'; rewrite E; reflexivity).
  rewrite G. repeat split.
Qed.






(** * Further properties of the relay *)

(** ** Invocations: when, what and where they publish *)

Lemma process_frame :
  forall fr cloud_event svc w,
  process_gcs_event fr cloud_event svc w
  = (fst (invoke fr (globals w) svc cloud_event),
     {| globals := globals w;
        trace := trace w ++ effects (invoke fr (globals w) svc cloud_event) |}).
Proof.
  intros fr cloud_event svc w.
  unfold effects, invoke, process_gcs_event, bind, print, get_data, emit, lift,
    try_except, read_global, publish, await_result. simpl.
  destruct (py_truthy (data cloud_event)); simpl;
    [|rewrite <- app_assoc; reflexivity].
  destruct (normalize fr (data cloud_event)) as [payload|e].
  2:{ destruct (is_JSONDecodeError e); simpl;
        repeat rewrite <- app_assoc; reflexivity. }
  destruct payload; simpl; try reflexivity.
  destruct (serialize _) as [body|e]; simpl.
  2:{ repeat rewrite <- app_assoc. reflexivity. }
  destruct (svc (topic_path (globals w)) body) as [future|e]; simpl.
  - destruct (result future); simpl; repeat rewrite <- app_assoc; reflexivity.
  - repeat rewrite <- app_assoc. reflexivity.
Qed.

Lemma publish_calls_app :
  forall a b, publish_calls (a ++ b) = publish_calls a ++ publish_calls b.
Proof.
  intros a b. induction a as [|ef a IH]; simpl; [reflexivity|].
  destruct ef; simpl; rewrite IH; reflexivity.
Qed.

Lemma invoke_globals :
  forall fr g svc cloud_event, globals (snd (invoke fr g svc cloud_event)) = g.
Proof.
  intros fr g svc cloud_event.
  destruct (invoke_run fr g svc cloud_event) as [res [t [E _]]].
  rewrite E. reflexivity.
Qed.

Lemma publish_calls_to_publish :
  forall fr g svc cloud_event,
  publish_calls (effects (invoke fr g svc cloud_event))
  = to_publish fr g (data cloud_event).
Proof.
  intros fr g svc cloud_event.
  destruct (invoke_run fr g svc cloud_event) as [res [t [E R]]].
  rewrite E. unfold effects, to_publish. simpl.
  destruct R;
    repeat match goal with
           | H : py_truthy _ = _ |- _ => rewrite H; clear H
           | H : normalize _ _ = _ |- _ => rewrite H; clear H
           | H : serialize _ = _ |- _ => rewrite H; clear H
           end; simpl; try reflexivity.
  - match goal with
    | H : forall items, ?p <> PyDict items |- _ =>
        destruct p; try reflexivity; exfalso; eapply H; reflexivity
    end.
  - rewrite after_publish_no_call. reflexivity.
Qed.

Lemma publish_calls_any_service :
  forall fr g svc1 svc2 cloud_event,
  publish_calls (effects (invoke fr g svc1 cloud_event))
  = publish_calls (effects (invoke fr g svc2 cloud_event)).
Proof.
  intros. rewrite !publish_calls_to_publish. reflexivity.
Qed.

Lemma fst_invoke_to_end :
  forall fr g svc cloud_event,
  fst (invoke fr g svc cloud_event) = to_end fr (data cloud_event).
Proof.
  intros fr g svc cloud_event.
  destruct (invoke_run fr g svc cloud_event) as [res [t [E R]]].
  rewrite E. unfold to_end. simpl.
  destruct R;
    repeat match goal with
           | H : py_truthy _ = _ |- _ => rewrite H; clear H
           | H : normalize _ _ = _ |- _ => rewrite H; clear H
           | H : serialize _ = _ |- _ => rewrite H; clear H
           end; simpl; try reflexivity.
  match goal with
  | H : forall items, ?p <> PyDict items |- _ =>
      destruct p; try reflexivity; exfalso; eapply H; reflexivity
  end.
Qed.

Lemma serialize_raises :
  forall v e, serialize v = Raise e -> e = TypeError /\ json_serializable v = false.
Proof.
  intros v e H. destruct (json_serializable v) eqn:S.
  - destruct (serialize_ok v S) as [text [body [_ [_ [_ Z]]]]]. congruence.
  - rewrite (serialize_not_serializable v S) in H. inversion H. auto.
Qed.

Lemma record_of_serializable :
  forall items,
  json_serializable (record_of items)
  = json_serializable (dict_get items (str_lit "name"))
    && json_serializable (dict_get items (str_lit "size"))
    && json_serializable (dict_get items (str_lit "contentType")).
Proof.
  intros items. unfold record_of. apply record_serializable.
Qed.








(** X5: the "Published message ..." line is only printed after the service
    accepted the call and the future delivered a message id: the line
    carries that id and the configured topic id, and exactly one publish
    call was made. *)
Theorem success_line_means_acknowledged :
  forall fr g svc cloud_event message_id topic_id,
  In (Print (LPublished message_id topic_id))
     (effects (invoke fr g svc cloud_event)) ->
  topic_id = PUBSUB_TOPIC_ID g
  /\ exists body future,
       publish_calls (effects (invoke fr g svc cloud_event))
       = [(topic_path g, body)]
       /\ svc (topic_path g) body = Ok future
       /\ result future = Ok message_id.
Proof.
  intros fr g svc cloud_event message_id topic_id I.
  destruct (invoke_run fr g svc cloud_event) as [res [t [E R]]].
  rewrite E in *. unfold effects in *. simpl in *.
  destruct R; simpl in I;
    try (repeat (destruct I as [I|I]; [discriminate I|]); destruct I; fail).
  repeat (destruct I as [I|I]; [discriminate I|]).
  unfold after_publish in I.
  destruct (svc (topic_path g) body) as [future|e] eqn:P.
  - destruct (result future) as [mid|e] eqn:W; simpl in I.
    + destruct I as [I|[I|[]]]; [discriminate I|]. inversion I; subst.
      split; [reflexivity|]. exists body, future.
      simpl. rewrite W. repeat split; try assumption; reflexivity.
    + destruct I as [I|[I|[]]]; discriminate I.
  - simpl in I. destruct I as [I|[]]. discriminate I.
Qed.

Lemma success_line_means_acknowledged_witness :
  exists body future,
    publish_calls
      (effects (invoke literal_float_repr sample_globals acking_service
                       {| attributes := []; data := PyBytes jpeg_notification |}))
    = [(topic_path sample_globals, body)]
    /\ acking_service (topic_path sample_globals) body = Ok future
    /\ result future = Ok (str_lit "4711").
Proof.
  apply (success_line_means_acknowledged
           literal_float_repr sample_globals acking_service
           {| attributes := []; data := PyBytes jpeg_notification |}
           (str_lit "4711") (Some (str_lit "uploads"))).
  vm_compute. tauto.
Defined.

(** X6: [future.result()] is waited for exactly when a publish call was
    made and returned a future. *)
Theorem result_awaited_exactly_when_future :
  forall fr g svc cloud_event,
  In AwaitResult (effects (invoke fr g svc cloud_event))
  <-> exists body future,
        publish_calls (effects (invoke fr g svc cloud_event))
        = [(topic_path g, body)]
        /\ svc (topic_path g) body = Ok future.
Proof.
  intros fr g svc cloud_event.
  destruct (invoke_run fr g svc cloud_event) as [res [t [E R]]].
  rewrite E. unfold effects. simpl. split.
  - intros I.
    destruct R; simpl in I;
      try (repeat (destruct I as [I|I]; [discriminate I|]); destruct I; fail).
    repeat (destruct I as [I|I]; [discriminate I|]).
    unfold after_publish in I.
    destruct (svc (topic_path g) body) as [future|e] eqn:P.
    + exists body, future. simpl.
      destruct (result future); (split; [reflexivity|exact P]).
    + simpl in I. destruct I as [I|[]]. discriminate I.
  - intros [body [future [P F]]].
    destruct R; simpl in P; try discriminate P.
    rewrite after_publish_no_call in P. inversion P; subst.
    right. apply in_or_app. right. right. unfold after_publish. rewrite F.
    destruct (result future); left; reflexivity.
Qed.

(** X7: invocations do not interfere.  A second invocation on the state
    left by a first one ends as it would on a fresh state, leaves the
    globals as they were, and appends its effects to those of the
    first. *)
Theorem invocations_compose :
  forall fr g svc1 event1 svc2 event2,
  fst (invoke_then fr g svc1 event1 svc2 event2) = fst (invoke fr g svc2 event2)
  /\ globals (snd (invoke_then fr g svc1 event1 svc2 event2)) = g
  /\ effects (invoke_then fr g svc1 event1 svc2 event2)
     = effects (invoke fr g svc1 event1) ++ effects (invoke fr g svc2 event2).
Proof.
  intros fr g svc1 event1 svc2 event2. unfold invoke_then.
  rewrite process_frame. rewrite invoke_globals. unfold effects. simpl.
  repeat split.
Qed.

(** X8: the handler keeps no record of the events it has seen.  An event
    delivered twice is published twice: the publish calls of the pair are
    those of a single delivery, repeated, whatever the service answered
    the first time. *)
Theorem redelivery_publishes_again :
  forall fr g svc1 svc2 cloud_event,
  publish_calls (effects (invoke_then fr g svc1 cloud_event svc2 cloud_event))
  = publish_calls (effects (invoke fr g svc1 cloud_event))
    ++ publish_calls (effects (invoke fr g svc1 cloud_event)).
Proof.
  intros fr g svc1 svc2 cloud_event.
  unfold invoke_then. rewrite process_frame, invoke_globals.
  unfold effects at 1. simpl. rewrite publish_calls_app.
  fold (effects (invoke fr g svc1 cloud_event)).
  rewrite (publish_calls_any_service fr g svc2 svc1). reflexivity.
Qed.

Lemma utf8_decode_nonempty :
  forall b s, utf8_decode b = Some s -> (b = [] <-> s = []).
Proof.
  intros b s H. destruct b as [|b0 r].
  - simpl in H. inversion H. tauto.
  - split; [discriminate|]. intros ->. exfalso. simpl in H.
    unfold option_map in H.
    repeat match type of H with
           | context [if ?c then _ else _] => destruct c
           | context [match ?x with _ => _ end] => destruct x
           end; simpl in H; discriminate H.
Qed.

(** X9: a payload given as bytes that decode as UTF-8 is handled like the
    decoded text: same outcome and same publish calls. *)
Theorem bytes_and_text_alike :
  forall fr g svc attrs b s,
  utf8_decode b = Some s ->
  fst (invoke fr g svc {| attributes := attrs; data := PyBytes b |})
  = fst (invoke fr g svc {| attributes := attrs; data := PyStr s |})
  /\ publish_calls
       (effects (invoke fr g svc {| attributes := attrs; data := PyBytes b |}))
     = publish_calls
         (effects (invoke fr g svc {| attributes := attrs; data := PyStr s |})).
Proof.
  intros fr g svc attrs b s U.
  rewrite !fst_invoke_to_end, !publish_calls_to_publish.
  unfold to_end, to_publish. simpl. rewrite U.
  pose proof (utf8_decode_nonempty b s U) as NE.
  destruct b as [|b0 r]; destruct s as [|c t].
  - split; reflexivity.
  - destruct NE as [NE _]. specialize (NE eq_refl). discriminate NE.
  - destruct NE as [_ NE]. specialize (NE eq_refl). discriminate NE.
  - split; reflexivity.
Qed.

Lemma bytes_and_text_alike_witness :
  publish_calls
    (effects (invoke literal_float_repr sample_globals acking_service
                     {| attributes := []; data := PyBytes jpeg_notification |}))
  = publish_calls
      (effects (invoke literal_float_repr sample_globals acking_service
                       {| attributes := []; data := PyStr jpeg_notification_text |})).
Proof.
  apply (bytes_and_text_alike literal_float_repr sample_globals acking_service
           [] jpeg_notification jpeg_notification_text).
  vm_compute. reflexivity.
Defined.

Lemma json_loads_nonempty :
  forall fr s v, json_loads fr s = Ok v -> s <> [].
Proof.
  intros fr s v H ->. vm_compute in H. discriminate H.
Qed.





(** X12: every publish call of a handler running on the module's initial
    globals goes to "projects/<GCP_PROJECT>/topics/<PUBSUB_TOPIC_ID>",
    built once from the environment at import (an unset variable reads as
    "None"). *)
Theorem publishes_on_the_topic_of_the_environment :
  forall fr environ client svc cloud_event topic body,
  In (topic, body)
     (publish_calls
        (effects (invoke fr (fst (module_init environ client)) svc cloud_event))) ->
  topic = str_lit "projects/"
          ++ str_of_optional (environ (str_lit "GCP_PROJECT"))
          ++ str_lit "/topics/"
          ++ str_of_optional (environ (str_lit "PUBSUB_TOPIC_ID")).
Proof.
  intros fr environ client svc cloud_event topic body I.
  rewrite publish_calls_to_publish in I. unfold to_publish in I.
  repeat match type of I with
         | context [if ?c then _ else _] => destruct c
         | context [match ?x with _ => _ end] => destruct x
         end; simpl in I; try (destruct I; fail).
  destruct I as [I|[]]. inversion I. reflexivity.
Qed.

Lemma publishes_on_the_topic_of_the_environment_witness :
  str_lit "projects/demo/topics/uploads"
  = str_lit "projects/"
    ++ str_of_optional (sample_environ (str_lit "GCP_PROJECT"))
    ++ str_lit "/topics/"
    ++ str_of_optional (sample_environ (str_lit "PUBSUB_TOPIC_ID")).
Proof.
  apply (publishes_on_the_topic_of_the_environment
           literal_float_repr sample_environ {| client_id := 0 |} acking_service
           {| attributes := []; data := PyBytes jpeg_notification |}
           (str_lit "projects/demo/topics/uploads")
           (map byte_of_N jpeg_summary_text)).
  vm_compute. left. reflexivity.
Defined.

Lemma unset_missing : forall o, unset o = true <-> missing o.
Proof.
  intros [[|c s]|]; unfold missing; simpl; split; intros H;
    try reflexivity; try (left; reflexivity); try (right; reflexivity);
    try discriminate H; destruct H as [H|H]; discriminate H.
Qed.







(** ** UTF-8: decoding accepts canonical encodings only *)

Lemma byte_of_to_N : forall b, byte_of_N (Byte.to_N b) = b.
Proof.
  intros b. unfold byte_of_N. rewrite Byte.of_to_N. reflexivity.
Qed.

Lemma in_range_bounds :
  forall lo hi n, in_range lo hi n = true -> lo <= n /\ n <= hi.
Proof.
  intros lo hi n H. unfold in_range in H. apply andb_prop in H.
  destruct H as [A B]. split; apply N.leb_le; assumption.
Qed.

Lemma option_map_cons_some :
  forall (c : N) (o : option pystr) s,
  option_map (cons c) o = Some s -> exists s', o = Some s' /\ s = c :: s'.
Proof.
  intros c [s'|] s H; simpl in H; [|discriminate].
  inversion H. exists s'. split; reflexivity.
Qed.

Lemma is_scalar_intro :
  forall c, c < 0xD800 \/ (0xE000 <= c /\ c <= 0x10FFFF) -> is_scalar c = true.
Proof.
  intros c [H|[A B]]; unfold is_scalar; apply orb_true_intro.
  - left. apply N.ltb_lt. exact H.
  - right. apply in_range_true; assumption.
Qed.

Lemma utf8_decode_step :
  forall b0 r0 s,
  utf8_decode (b0 :: r0) = Some s ->
  exists c cs rest s',
    s = c :: s' /\ b0 :: r0 = cs ++ rest /\ utf8_decode rest = Some s'
    /\ utf8_encode_char c = Some cs /\ is_scalar c = true
    /\ (List.length rest < List.length (b0 :: r0))%nat.
Proof.
  intros b0 r0 s H. cbn [utf8_decode] in H.
  pose proof (Byte.to_N_bounded b0) as B0.
  destruct (Byte.to_N b0 <? 128) eqn:C1.
  { apply N.ltb_lt in C1. apply option_map_cons_some in H.
    destruct H as [s' [D ->]].
    exists (Byte.to_N b0), [b0], r0, s'. repeat split; try assumption.
    - unfold utf8_encode_char.
      assert (E : (Byte.to_N b0 <? 128) = true) by (apply N.ltb_lt; exact C1).
      rewrite E, byte_of_to_N. reflexivity.
    - apply is_scalar_intro. lia.
    - simpl. lia. }
  apply N.ltb_ge in C1.
  destruct (in_range 194 223 (Byte.to_N b0)) eqn:C2.
  { apply in_range_bounds in C2. destruct r0 as [|b1 r1]; [discriminate H|].
    destruct (in_range 128 191 (Byte.to_N b1)) eqn:R1; [|discriminate H].
    apply in_range_bounds in R1. apply option_map_cons_some in H.
    destruct H as [s' [D ->]].
    exists ((Byte.to_N b0 - 192) * 64 + (Byte.to_N b1 - 128)), [b0; b1], r1, s'.
    repeat split; try assumption.
    - unfold utf8_encode_char.
      assert (E1 : ((Byte.to_N b0 - 192) * 64 + (Byte.to_N b1 - 128) <? 128) = false)
        by (apply N.ltb_ge; lia).
      assert (E2 : ((Byte.to_N b0 - 192) * 64 + (Byte.to_N b1 - 128) <? 2048) = true)
        by (apply N.ltb_lt; lia).
      rewrite E1, E2.
      replace (192 + ((Byte.to_N b0 - 192) * 64 + (Byte.to_N b1 - 128)) / 64)
        with (Byte.to_N b0) by div_mod_lia.
      replace (128 + ((Byte.to_N b0 - 192) * 64 + (Byte.to_N b1 - 128)) mod 64)
        with (Byte.to_N b1) by div_mod_lia.
      rewrite !byte_of_to_N. reflexivity.
    - apply is_scalar_intro. lia.
    - simpl. lia. }
  destruct (in_range 224 239 (Byte.to_N b0)) eqn:C3.
  { apply in_range_bounds in C3.
    destruct r0 as [|b1 [|b2 r2]]; try discriminate H.
    match type of H with
    | (if ?c then _ else _) = _ => destruct c eqn:R; [|discriminate H]
    end.
    apply andb_prop in R. destruct R as [R1 R2].
    apply in_range_bounds in R1. apply in_range_bounds in R2.
    apply option_map_cons_some in H. destruct H as [s' [D ->]].
    set (n0 := Byte.to_N b0) in *. set (n1 := Byte.to_N b1) in *.
    set (n2 := Byte.to_N b2) in *.
    assert (L1 : (if n0 =? 224 then 160 else 128) <= n1) by tauto.
    assert (H1 : n1 <= (if n0 =? 237 then 159 else 191)) by tauto.
    clear R1.
    assert (F1 : n0 = 224 -> 160 <= n1).
    { intros Q. rewrite Q in L1. exact L1. }
    assert (F2 : n0 = 237 -> n1 <= 159).
    { intros Q. rewrite Q in H1. exact H1. }
    assert (F3 : 128 <= n1 /\ n1 <= 191).
    { destruct (n0 =? 224); destruct (n0 =? 237); lia. }
    clear L1 H1.
    exists ((n0 - 224) * 4096 + (n1 - 128) * 64 + (n2 - 128)), [b0; b1; b2], r2, s'.
    repeat split; try assumption.
    - unfold utf8_encode_char.
      set (c := (n0 - 224) * 4096 + (n1 - 128) * 64 + (n2 - 128)).
      assert (K : 2048 <= c /\ c < 65536 /\ (c < 55296 \/ 57343 < c)).
      { subst c. destruct (N.eq_dec n0 224) as [Q|Q]; [specialize (F1 Q)|];
          destruct (N.eq_dec n0 237) as [Q'|Q']; try specialize (F2 Q'); lia. }
      assert (E1 : (c <? 128) = false) by (apply N.ltb_ge; lia).
      assert (E2 : (c <? 2048) = false) by (apply N.ltb_ge; lia).
      assert (E3 : in_range 55296 57343 c = false) by (apply in_range_false; lia).
      assert (E4 : (c <? 65536) = true) by (apply N.ltb_lt; lia).
      rewrite E1, E2, E3, E4.
      replace (224 + c / 4096) with n0 by (subst c; div_mod_lia).
      replace (128 + (c / 64) mod 64) with n1 by (subst c; div_mod_lia).
      replace (128 + c mod 64) with n2 by (subst c; div_mod_lia).
      subst n0 n1 n2. rewrite !byte_of_to_N. reflexivity.
    - apply is_scalar_intro.
      destruct (N.eq_dec n0 224) as [Q|Q]; [specialize (F1 Q)|];
        destruct (N.eq_dec n0 237) as [Q'|Q']; try specialize (F2 Q'); lia.
    - simpl. lia. }
  destruct (in_range 240 244 (Byte.to_N b0)) eqn:C4; [|discriminate H].
  apply in_range_bounds in C4.
  destruct r0 as [|b1 [|b2 [|b3 r3]]]; try discriminate H.
  match type of H with
  | (if ?c then _ else _) = _ => destruct c eqn:R; [|discriminate H]
  end.
  apply andb_prop in R. destruct R as [R R3].
  apply andb_prop in R. destruct R as [R1 R2].
  apply in_range_bounds in R1. apply in_range_bounds in R2.
  apply in_range_bounds in R3.
  apply option_map_cons_some in H. destruct H as [s' [D ->]].
  set (n0 := Byte.to_N b0) in *. set (n1 := Byte.to_N b1) in *.
  set (n2 := Byte.to_N b2) in *. set (n3 := Byte.to_N b3) in *.
  assert (L1 : (if n0 =? 240 then 144 else 128) <= n1) by tauto.
  assert (H1 : n1 <= (if n0 =? 244 then 143 else 191)) by tauto.
  clear R1.
  assert (F1 : n0 = 240 -> 144 <= n1).
  { intros Q. rewrite Q in L1. exact L1. }
  assert (F2 : n0 = 244 -> n1 <= 143).
  { intros Q. rewrite Q in H1. exact H1. }
  assert (F3 : 128 <= n1 /\ n1 <= 191).
  { destruct (n0 =? 240); destruct (n0 =? 244); lia. }
  clear L1 H1.
  exists ((n0 - 240) * 262144 + (n1 - 128) * 4096 + (n2 - 128) * 64 + (n3 - 128)),
         [b0; b1; b2; b3], r3, s'.
  repeat split; try assumption.
  - unfold utf8_encode_char.
    set (c := (n0 - 240) * 262144 + (n1 - 128) * 4096 + (n2 - 128) * 64 + (n3 - 128)).
    assert (K : 65536 <= c /\ c <= 1114111).
    { subst c. destruct (N.eq_dec n0 240) as [Q|Q]; [specialize (F1 Q)|];
        destruct (N.eq_dec n0 244) as [Q'|Q']; try specialize (F2 Q'); lia. }
    assert (E1 : (c <? 128) = false) by (apply N.ltb_ge; lia).
    assert (E2 : (c <? 2048) = false) by (apply N.ltb_ge; lia).
    assert (E3 : in_range 55296 57343 c = false) by (apply in_range_false; lia).
    assert (E4 : (c <? 65536) = false) by (apply N.ltb_ge; lia).
    rewrite E1, E2, E3, E4.
    replace (240 + c / 262144) with n0 by (subst c; div_mod_lia).
    replace (128 + (c / 4096) mod 64) with n1 by (subst c; div_mod_lia).
    replace (128 + (c / 64) mod 64) with n2 by (subst c; div_mod_lia).
    replace (128 + c mod 64) with n3 by (subst c; div_mod_lia).
    subst n0 n1 n2 n3. rewrite !byte_of_to_N. reflexivity.
  - apply is_scalar_intro.
    destruct (N.eq_dec n0 240) as [Q|Q]; [specialize (F1 Q)|];
      destruct (N.eq_dec n0 244) as [Q'|Q']; try specialize (F2 Q'); lia.
  - simpl. lia.
Qed.

Lemma utf8_decode_canonical_bounded :
  forall n b s,
  (List.length b <= n)%nat -> utf8_decode b = Some s ->
  unicode_text s /\ utf8_encode s = Some b.
Proof.
  induction n as [|n IH]; intros b s L H.
  - destruct b; [|simpl in L; lia]. simpl in H. inversion H.
    split; [constructor|reflexivity].
  - destruct b as [|b0 r0].
    + simpl in H. inversion H. split; [constructor|reflexivity].
    + destruct (utf8_decode_step b0 r0 s H)
        as [c [cs [rest [s' [-> [B [D [E [S Lr]]]]]]]]].
      destruct (IH rest s') as [U E']; [simpl in *; lia|exact D|].
      split; [constructor; assumption|].
      cbn [utf8_encode]. rewrite E, E', B. reflexivity.
Qed.

(** ** Integers read back *)

Lemma str_lit_string_of_uint :
  forall d, str_lit (NilEmpty.string_of_uint d) = udigits d.
Proof.
  induction d; simpl; try reflexivity;
    unfold str_lit in *; simpl; rewrite IHd; reflexivity.
Qed.

Lemma span_digits_delimited :
  forall rest, delimited rest = true -> span_digits rest = ([], rest).
Proof.
  intros [|c r] H; [reflexivity|]. simpl in *.
  assert (E : is_digit c = false).
  { apply orb_prop in H. destruct H as [H|H];
      [apply orb_prop in H; destruct H as [H|H]|];
      apply N.eqb_eq in H; subst; reflexivity. }
  rewrite E. reflexivity.
Qed.

Lemma span_digits_udigits :
  forall d rest,
  delimited rest = true -> span_digits (udigits d ++ rest) = (udigits d, rest).
Proof.
  intros d rest H. induction d; simpl;
    try (apply span_digits_delimited; exact H);
    change (is_digit _) with true; cbv iota; rewrite IHd; reflexivity.
Qed.

Local Abbreviation step := (fun (acc : Z) (d : N) => (acc * 10 + Z.of_N (d - 48))%Z).

Lemma fold_udigits_acc :
  forall d acc,
  fold_left step (udigits d) (Zpos acc) = Zpos (Pos.of_uint_acc d acc).
Proof.
  induction d; intros acc; cbn [udigits fold_left Pos.of_uint_acc];
    try reflexivity.
  all: match goal with
       | |- fold_left step _ ?z = Zpos (Pos.of_uint_acc _ ?p) =>
           replace z with (Zpos p) by (simpl Z.of_N; lia)
       end; apply IHd.
Qed.

Lemma fold_udigits :
  forall d, fold_left step (udigits d) 0%Z = Z.of_N (Pos.of_uint d).
Proof.
  induction d; cbn [udigits fold_left Pos.of_uint]; try reflexivity;
    try exact IHd;
    match goal with
    | |- fold_left step _ _ = Z.of_N (N.pos (Pos.of_uint_acc _ ?p)) =>
        exact (fold_udigits_acc d p)
    end.
Qed.

Lemma int_of_digits_udigits :
  forall d, int_of_digits (udigits d) = Z.of_N (Pos.of_uint d).
Proof.
  intros d. unfold int_of_digits. apply (fold_udigits d).
Qed.

Lemma to_uint_head :
  forall p, exists c l,
    udigits (Pos.to_uint p) = c :: udigits l /\ in_range 49 57 c = true.
Proof.
  intros p.
  assert (U : Pos.to_uint p = Decimal.unorm (Pos.to_uint p)).
  { rewrite <- (DecimalPos.Unsigned.to_of (Pos.to_uint p)).
    rewrite DecimalPos.Unsigned.of_to. reflexivity. }
  assert (H : Pos.to_uint p = Decimal.nzhead (Pos.to_uint p)).
  { rewrite U at 1. apply DecimalFacts.unorm_nzhead. intros E.
    apply (DecimalPos.Unsigned.to_uint_nonzero p).
    rewrite U. apply DecimalFacts.unorm_0. exact E. }
  pose proof (DecimalPos.Unsigned.to_uint_nonnil p) as NN.
  destruct (Pos.to_uint p) as [|l|l|l|l|l|l|l|l|l|l] eqn:E;
    try (eexists; exists l; split; reflexivity).
  - congruence.
  - exfalso. apply (DecimalFacts.nzhead_nonzero (Decimal.D0 l) l). symmetry. exact H.
Qed.

Lemma scan_frac_delimited :
  forall rest, delimited rest = true -> scan_frac rest = ([], rest).
Proof.
  intros [|c r] H; [reflexivity|]. simpl in *.
  assert (E : (c =? 46) = false).
  { apply orb_prop in H. destruct H as [H|H];
      [apply orb_prop in H; destruct H as [H|H]|];
      apply N.eqb_eq in H; subst; reflexivity. }
  rewrite E. reflexivity.
Qed.

Lemma scan_exp_delimited :
  forall rest, delimited rest = true -> scan_exp rest = ([], rest).
Proof.
  intros [|c r] H; [reflexivity|]. simpl in *.
  assert (E : (c =? 101) || (c =? 69) = false).
  { apply orb_prop in H. destruct H as [H|H];
      [apply orb_prop in H; destruct H as [H|H]|];
      apply N.eqb_eq in H; subst; reflexivity. }
  rewrite E. reflexivity.
Qed.

Section Numbers.
Variable fr : pystr -> string.

Lemma match_number_digits :
  forall p rest,
  delimited rest = true ->
  match_number fr (udigits (Pos.to_uint p) ++ rest) = Some (PyInt (Zpos p), rest)
  /\ match_number fr (45 :: udigits (Pos.to_uint p) ++ rest)
     = Some (PyInt (Zneg p), rest).
Proof.
  intros p rest D.
  destruct (to_uint_head p) as [c [l [E R]]].
  pose proof (int_of_digits_udigits (Pos.to_uint p)) as V.
  rewrite DecimalPos.Unsigned.of_to in V. simpl Z.of_N in V.
  rewrite E in *. apply in_range_bounds in R.
  assert (C45 : (c =? 45) = false) by (apply N.eqb_neq; lia).
  assert (C48 : (c =? 48) = false) by (apply N.eqb_neq; lia).
  assert (CR : in_range 49 57 c = true) by (apply in_range_true; lia).
  change ((c :: udigits l) ++ rest) with (c :: udigits l ++ rest).
  assert (I : scan_int_part (c :: udigits l ++ rest) = Some (c :: udigits l, rest)).
  { cbn [scan_int_part]. rewrite C48, CR, (span_digits_udigits l rest D).
    reflexivity. }
  assert (S1 : scan_sign (c :: udigits l ++ rest) = ([], c :: udigits l ++ rest)).
  { cbn [scan_sign]. rewrite C45. reflexivity. }
  assert (S2 : scan_sign (45 :: c :: udigits l ++ rest)
               = ([45], c :: udigits l ++ rest)) by reflexivity.
  split; unfold match_number.
  - rewrite S1. cbv beta iota zeta. rewrite I. cbv beta iota zeta.
    rewrite (scan_frac_delimited rest D). cbv beta iota zeta.
    rewrite (scan_exp_delimited rest D). cbv beta iota zeta.
    rewrite V. reflexivity.
  - rewrite S2. cbv beta iota zeta. rewrite I. cbv beta iota zeta.
    rewrite (scan_frac_delimited rest D). cbv beta iota zeta.
    rewrite (scan_exp_delimited rest D). cbv beta iota zeta.
    rewrite V. reflexivity.
Qed.

Lemma match_number_zero :
  forall rest,
  delimited rest = true -> match_number fr (48 :: rest) = Some (PyInt 0, rest).
Proof.
  intros rest D. unfold match_number.
  change (scan_sign (48 :: rest)) with (@nil N, 48 :: rest). cbv beta iota zeta.
  change (scan_int_part (48 :: rest)) with (Some ([48], rest)).
  cbv beta iota zeta.
  rewrite (scan_frac_delimited rest D). cbv beta iota zeta.
  rewrite (scan_exp_delimited rest D). reflexivity.
Qed.

Lemma int_repr_cases :
  forall z,
  (z = 0%Z /\ int_repr z = [48])
  \/ (exists p, z = Zpos p /\ int_repr z = udigits (Pos.to_uint p))
  \/ (exists p, z = Zneg p /\ int_repr z = 45 :: udigits (Pos.to_uint p)).
Proof.
  intros [|p|p]; unfold int_repr.
  - left. split; reflexivity.
  - right. left. exists p. split; [reflexivity|].
    simpl Z.to_int. unfold NilZero.string_of_int, NilZero.string_of_uint.
    pose proof (DecimalPos.Unsigned.to_uint_nonnil p).
    destruct (Pos.to_uint p) eqn:E; try congruence;
      rewrite <- str_lit_string_of_uint; reflexivity.
  - right. right. exists p. split; [reflexivity|].
    simpl Z.to_int. unfold NilZero.string_of_int, NilZero.string_of_uint.
    pose proof (DecimalPos.Unsigned.to_uint_nonnil p).
    destruct (Pos.to_uint p) eqn:E; try congruence;
      rewrite <- str_lit_string_of_uint; reflexivity.
Qed.

Lemma scan_scalar_number :
  forall c t,
  c = 45 \/ in_range 48 57 c = true ->
  scan_scalar fr (c :: t)
  = match match_number fr (c :: t) with
    | Some (v, rest) => Parsed v rest
    | None =>
        match strip_prefix (str_lit "-Infinity") (c :: t) with
        | Some rest => Parsed (PyFloat "-inf") rest
        | None => Malformed
        end
    end.
Proof.
  intros c t H. unfold scan_scalar.
  assert (B : 45 <= c /\ c <= 57).
  { destruct H as [->|H]; [lia|]. apply in_range_bounds in H. lia. }
  assert (E1 : (110 =? c) = false) by (apply N.eqb_neq; lia).
  assert (E2 : (116 =? c) = false) by (apply N.eqb_neq; lia).
  assert (E3 : (102 =? c) = false) by (apply N.eqb_neq; lia).
  assert (E4 : (78 =? c) = false) by (apply N.eqb_neq; lia).
  assert (E5 : (73 =? c) = false) by (apply N.eqb_neq; lia).
  change (strip_prefix (str_lit "null") (c :: t))
    with (if 110 =? c then strip_prefix (str_lit "ull") t else None).
  change (strip_prefix (str_lit "true") (c :: t))
    with (if 116 =? c then strip_prefix (str_lit "rue") t else None).
  change (strip_prefix (str_lit "false") (c :: t))
    with (if 102 =? c then strip_prefix (str_lit "alse") t else None).
  change (strip_prefix (str_lit "NaN") (c :: t))
    with (if 78 =? c then strip_prefix (str_lit "aN") t else None).
  change (strip_prefix (str_lit "Infinity") (c :: t))
    with (if 73 =? c then strip_prefix (str_lit "nfinity") t else None).
  rewrite E1, E2, E3, E4, E5.
  destruct (match_number fr (c :: t)) as [[v rest]|]; reflexivity.
Qed.

Lemma scan_once_number :
  forall n c t,
  c = 45 \/ in_range 48 57 c = true ->
  scan_once fr (S n) (c :: t) = scan_scalar fr (c :: t).
Proof.
  intros n c t H.
  assert (B : 45 <= c /\ c <= 57).
  { destruct H as [->|H]; [lia|]. apply in_range_bounds in H. lia. }
  assert (E1 : (c =? 34) = false) by (apply N.eqb_neq; lia).
  assert (E2 : (c =? 123) = false) by (apply N.eqb_neq; lia).
  assert (E3 : (c =? 91) = false) by (apply N.eqb_neq; lia).
  cbn [scan_once]. rewrite E1, E2, E3. reflexivity.
Qed.

Lemma scan_int :
  forall z rest n,
  delimited rest = true ->
  scan_once fr (S n) (int_repr z ++ rest) = Parsed (PyInt z) rest
  /\ exists c t, int_repr z = c :: t /\ (c = 45 \/ in_range 48 57 c = true).
Proof.
  intros z rest n D.
  destruct (int_repr_cases z) as [[-> E]|[[p [-> E]]|[p [-> E]]]]; rewrite E.
  - split; [|exists 48, []; split; [reflexivity|right; reflexivity]].
    change ([48] ++ rest) with (48 :: rest).
    rewrite scan_once_number by (right; reflexivity).
    rewrite scan_scalar_number by (right; reflexivity).
    rewrite (match_number_zero rest D). reflexivity.
  - destruct (to_uint_head p) as [c [l [H R]]].
    destruct (match_number_digits p rest D) as [M _].
    rewrite H in *. split.
    + change ((c :: udigits l) ++ rest) with (c :: udigits l ++ rest) in *.
      assert (Q : c = 45 \/ in_range 48 57 c = true).
      { right. apply in_range_bounds in R. apply in_range_true; lia. }
      rewrite scan_once_number by exact Q.
      rewrite scan_scalar_number by exact Q.
      rewrite M. reflexivity.
    + exists c, (udigits l). split; [reflexivity|]. right.
      apply in_range_bounds in R. apply in_range_true; lia.
  - destruct (match_number_digits p rest D) as [_ M]. split.
    + change ((45 :: udigits (Pos.to_uint p)) ++ rest)
        with (45 :: udigits (Pos.to_uint p) ++ rest).
      rewrite scan_once_number by (left; reflexivity).
      rewrite scan_scalar_number by (left; reflexivity).
      rewrite M. reflexivity.
    + eexists. eexists. split; [reflexivity|]. left. reflexivity.
Qed.

End Numbers.

(** ** JSON values read back *)

Section General.

Variable fr : pystr -> string.

Local Abbreviation good := (scans_back fr).

Lemma scan_stable :
  forall n,
  (forall s r, scan_once fr n s = r -> r <> TooDeep ->
     forall m, (n <= m)%nat -> scan_once fr m s = r)
  /\ (forall s acc r, parse_members fr n s acc = r -> r <> TooDeep ->
        forall m, (n <= m)%nat -> parse_members fr m s acc = r)
  /\ (forall s acc r, parse_elems fr n s acc = r -> r <> TooDeep ->
        forall m, (n <= m)%nat -> parse_elems fr m s acc = r).
Proof.
  induction n as [|n [IHscan [IHmembers IHelems]]].
  - repeat split; intros; simpl in *; congruence.
  - split; [|split].
    + intros s r H NT m L. destruct m as [|m]; [lia|].
      assert (L' : (n <= m)%nat) by lia.
      destruct s as [|c t]; simpl in H |- *; [exact H|].
      destruct (c =? 34); [exact H|].
      destruct (c =? 123).
      { destruct (skip_ws t) as [|d r']; [exact H|].
        destruct (d =? 125); [exact H|]. apply IHmembers; assumption. }
      destruct (c =? 91).
      { destruct (skip_ws t) as [|d r']; [exact H|].
        destruct (d =? 93); [exact H|]. apply IHelems; assumption. }
      exact H.
    + intros s acc r H NT m L. destruct m as [|m]; [lia|].
      assert (L' : (n <= m)%nat) by lia.
      destruct s as [|c t]; simpl in H |- *; [exact H|].
      destruct (c =? 34); [|exact H].
      destruct (scanstring t) as [[key r1]|]; [|exact H].
      destruct (skip_ws r1) as [|d r2]; [exact H|].
      destruct (d =? 58); [|exact H].
      destruct (scan_once fr n (skip_ws r2)) as [w r3| |] eqn:E.
      * rewrite (IHscan _ _ E ltac:(discriminate) m L').
        destruct (skip_ws r3) as [|e r4]; [exact H|].
        destruct (e =? 125); [exact H|].
        destruct (e =? 44); [|exact H].
        apply IHmembers; assumption.
      * rewrite (IHscan _ _ E ltac:(discriminate) m L'). exact H.
      * congruence.
    + intros s acc r H NT m L. destruct m as [|m]; [lia|].
      assert (L' : (n <= m)%nat) by lia.
      simpl in H |- *.
      destruct (scan_once fr n s) as [w r1| |] eqn:E.
      * rewrite (IHscan _ _ E ltac:(discriminate) m L').
        destruct (skip_ws r1) as [|e r2]; [exact H|].
        destruct (e =? 93); [exact H|].
        destruct (e =? 44); [|exact H].
        apply IHelems; assumption.
      * rewrite (IHscan _ _ E ltac:(discriminate) m L'). exact H.
      * congruence.
Qed.

Lemma scan_once_stable :
  forall n m s v rest,
  scan_once fr n s = Parsed v rest -> (n <= m)%nat ->
  scan_once fr m s = Parsed v rest.
Proof.
  intros n m s v rest H L.
  apply (proj1 (scan_stable n) s _ H ltac:(discriminate) m L).
Qed.

Lemma parse_elems_stable :
  forall n m s acc v rest,
  parse_elems fr n s acc = Parsed v rest -> (n <= m)%nat ->
  parse_elems fr m s acc = Parsed v rest.
Proof.
  intros n m s acc v rest H L.
  apply (proj2 (proj2 (scan_stable n)) s acc _ H ltac:(discriminate) m L).
Qed.

Lemma parse_members_stable :
  forall n m s acc v rest,
  parse_members fr n s acc = Parsed v rest -> (n <= m)%nat ->
  parse_members fr m s acc = Parsed v rest.
Proof.
  intros n m s acc v rest H L.
  apply (proj1 (proj2 (scan_stable n)) s acc _ H ltac:(discriminate) m L).
Qed.

(** Enough fuel for the whole text gives what any larger fuel gives. *)
Lemma decode_of_scan :
  forall n text v,
  skip_ws text = text ->
  scan_once fr n text = Parsed v [] ->
  decode fr text = Ok v.
Proof.
  intros n text v W H. unfold decode. rewrite W.
  destruct (proj1 (scan_fuel fr (S (2 * List.length text))) text) as [NT _];
    [lia|].
  set (f := S (2 * List.length text)) in *.
  pose proof (scan_once_stable n (Nat.max n f) text v [] H (Nat.le_max_l n f)) as A.
  pose proof (proj1 (scan_stable f) text _ eq_refl NT (Nat.max n f)
                (Nat.le_max_r n f)) as B.
  rewrite A in B. rewrite <- B. reflexivity.
Qed.

Lemma value_start_not_ws : forall c, value_start c = true -> is_ws c = false.
Proof.
  intros c H. unfold value_start in H.
  repeat (apply andb_prop in H; destruct H as [H ?]).
  apply negb_true_iff. exact H.
Qed.

Lemma skip_ws_value_start :
  forall c t, value_start c = true -> skip_ws (c :: t) = c :: t.
Proof.
  intros c t H. simpl. rewrite (value_start_not_ws c H). reflexivity.
Qed.

Lemma parse_elems_unfold :
  forall n s acc,
  parse_elems fr (S n) s acc
  = match scan_once fr n s with
    | Parsed v r1 =>
        match skip_ws r1 with
        | [] => Malformed
        | e :: r2 =>
            if e =? 93 then Parsed (PyList (acc ++ [v])) r2
            else if e =? 44 then parse_elems fr n (skip_ws r2) (acc ++ [v])
            else Malformed
        end
    | Malformed => Malformed
    | TooDeep => TooDeep
    end.
Proof.
  reflexivity.
Qed.

Lemma sequence_cons_ok :
  forall (A : Type) (a : A) (l : list (Res A)) parts,
  sequence l = Ok parts -> sequence (Ok a :: l) = Ok (a :: parts).
Proof.
  intros A a l parts H. simpl. rewrite H. reflexivity.
Qed.

Lemma elems_round_trip :
  forall l,
  Forall (fun v => json_value v = true -> good v) l ->
  forallb json_value l = true ->
  l <> [] ->
  exists parts c t,
    sequence (map json_dumps l) = Ok parts
    /\ join_sep [44; 32] parts = c :: t
    /\ value_start c = true
    /\ forall acc rest,
         exists n,
           parse_elems fr n (join_sep [44; 32] parts ++ 93 :: rest) acc
           = Parsed (PyList (acc ++ l)) rest.
Proof.
  intros l F. induction F as [|x l' Hx Hl IH]; intros J NE; [congruence|].
  simpl in J. apply andb_prop in J. destruct J as [Jx Jl].
  destruct (Hx Jx) as [px [c [t [Dx [Ex [Sx Px]]]]]].
  destruct l' as [|y l''].
  - exists [px], c, t. simpl. rewrite Dx. repeat split; try assumption.
    intros acc rest.
    destruct (Px (93 :: rest) eq_refl) as [n1 P1].
    exists (S n1). rewrite parse_elems_unfold, P1. reflexivity.
  - destruct (IH Jl ltac:(discriminate)) as [parts' [c' [t' [D' [E' [S' P']]]]]].
    assert (NP : exists p ps, parts' = p :: ps).
    { destruct parts' as [|p ps]; [|eauto]. simpl in E'. discriminate E'. }
    destruct NP as [p [ps ->]].
    exists (px :: p :: ps), c, (t ++ [44; 32] ++ join_sep [44; 32] (p :: ps)).
    split.
    { change (map json_dumps (x :: y :: l''))
        with (json_dumps x :: map json_dumps (y :: l'')).
      rewrite Dx. apply sequence_cons_ok. exact D'. }
    split.
    { change (join_sep [44; 32] (px :: p :: ps))
        with (px ++ [44; 32] ++ join_sep [44; 32] (p :: ps)).
      rewrite Ex. reflexivity. }
    split; [exact Sx|].
    intros acc rest.
    change (join_sep [44; 32] (px :: p :: ps))
      with (px ++ [44; 32] ++ join_sep [44; 32] (p :: ps)).
    rewrite <- !app_assoc.
    change ([44; 32] ++ join_sep [44; 32] (p :: ps) ++ 93 :: rest)
      with (44 :: 32 :: join_sep [44; 32] (p :: ps) ++ 93 :: rest).
    destruct (Px (44 :: 32 :: join_sep [44; 32] (p :: ps) ++ 93 :: rest) eq_refl)
      as [n1 P1].
    destruct (P' (acc ++ [x]) rest) as [n2 P2].
    exists (S (Nat.max n1 n2)). rewrite parse_elems_unfold.
    rewrite (scan_once_stable n1 _ _ _ _ P1 (Nat.le_max_l n1 n2)).
    change (skip_ws (44 :: 32 :: ?u)) with (44 :: 32 :: u). cbv iota.
    change (44 =? 93) with false. change (44 =? 44) with true. cbv iota.
    change (skip_ws (32 :: ?u)) with (skip_ws u).
    rewrite E'. change ((c' :: t') ++ 93 :: rest) with (c' :: t' ++ 93 :: rest).
    rewrite (skip_ws_value_start c' _ S').
    rewrite E' in P2.
    change ((c' :: t') ++ 93 :: rest) with (c' :: t' ++ 93 :: rest) in P2.
    rewrite (parse_elems_stable n2 _ _ _ _ _ P2 (Nat.le_max_r n1 n2)).
    rewrite <- app_assoc. reflexivity.
Qed.

Lemma forallb_is_scalar :
  forall s, forallb is_scalar s = true -> unicode_text s.
Proof.
  intros s H. unfold unicode_text. apply Forall_forall. intros c I.
  rewrite forallb_forall in H. apply H. exact I.
Qed.

Lemma distinct_keys_fresh :
  forall (acc : list (pystr * PyVal)) k later,
  distinct_keys (map fst acc ++ k :: later) = true ->
  forall v, dict_set acc k v = acc ++ [(k, v)].
Proof.
  induction acc as [|[k0 v0] acc IH]; intros k later D v; [reflexivity|].
  simpl in D. apply andb_prop in D. destruct D as [N D].
  apply negb_true_iff in N. rewrite existsb_app in N.
  apply orb_false_elim in N. destruct N as [_ N]. simpl in N.
  apply orb_false_elim in N. destruct N as [N _].
  simpl. rewrite N. rewrite (IH k later D v). reflexivity.
Qed.

Lemma parse_member_value :
  forall n key v pv c t tail acc,
  unicode_text key -> pv = c :: t -> value_start c = true ->
  scan_once fr n (pv ++ tail) = Parsed v tail ->
  parse_members fr (S n)
    (34 :: flat_map escape_char key ++ 34 :: 58 :: 32 :: pv ++ tail) acc
  = match skip_ws tail with
    | [] => Malformed
    | e :: r4 =>
        if e =? 125 then Parsed (PyDict (dict_set acc key v)) r4
        else if e =? 44
             then parse_members fr n (skip_ws r4) (dict_set acc key v)
             else Malformed
    end.
Proof.
  intros n key v pv c t tail acc U E S P.
  rewrite parse_members_unfold. change (34 =? 34) with true. cbv iota.
  rewrite (scanstring_escaped key (58 :: 32 :: pv ++ tail) U).
  change (skip_ws (58 :: 32 :: pv ++ tail)) with (58 :: 32 :: pv ++ tail).
  cbv iota. change (58 =? 58) with true. cbv iota.
  change (skip_ws (32 :: pv ++ tail)) with (skip_ws (pv ++ tail)).
  assert (W : skip_ws (pv ++ tail) = pv ++ tail).
  { rewrite E. apply (skip_ws_value_start c (t ++ tail) S). }
  rewrite W, P. reflexivity.
Qed.

Lemma members_round_trip :
  forall items,
  Forall (fun kv => json_value (snd kv) = true -> good (snd kv)) items ->
  forallb member_ok items = true ->
  items <> [] ->
  exists parts t,
    sequence (map member_text items) = Ok parts
    /\ join_sep [44; 32] parts = 34 :: t
    /\ forall acc rest,
         distinct_keys (map fst acc ++ map fst items) = true ->
         exists n,
           parse_members fr n (join_sep [44; 32] parts ++ 125 :: rest) acc
           = Parsed (PyDict (acc ++ items)) rest.
Proof.
  intros items F. induction F as [|[k x] rest' Hx Hl IH]; intros J NE;
    [congruence|].
  simpl in J. apply andb_prop in J. destruct J as [Jx Jl].
  apply andb_prop in Jx. destruct Jx as [Jk Jx].
  pose proof (forallb_is_scalar k Jk) as Uk.
  destruct (Hx Jx) as [px [c [t [Dx [Ex [Sx Px]]]]]]. simpl in Dx.
  set (mt := encode_basestring_ascii k ++ [58; 32] ++ px).
  assert (Mt : mt = 34 :: flat_map escape_char k ++ 34 :: 58 :: 32 :: px).
  { subst mt. unfold encode_basestring_ascii. simpl.
    rewrite <- app_assoc. reflexivity. }
  assert (Dm : member_text (k, x) = Ok mt).
  { unfold member_text. rewrite Dx. reflexivity. }
  destruct rest' as [|kv' rest''].
  - exists [mt], (flat_map escape_char k ++ 34 :: 58 :: 32 :: px).
    split.
    { change (map member_text [(k, x)]) with [member_text (k, x)].
      rewrite Dm. reflexivity. }
    split; [exact Mt|].
    intros acc rest D.
    destruct (Px (125 :: rest) eq_refl) as [n1 P1].
    exists (S n1). cbn [join_sep]. rewrite Mt.
    change ((34 :: flat_map escape_char k ++ 34 :: 58 :: 32 :: px) ++ 125 :: rest)
      with (34 :: (flat_map escape_char k ++ 34 :: 58 :: 32 :: px) ++ 125 :: rest).
    rewrite <- app_assoc.
    change ((34 :: 58 :: 32 :: px) ++ 125 :: rest)
      with (34 :: 58 :: 32 :: px ++ 125 :: rest).
    rewrite (parse_member_value n1 k x px c t (125 :: rest) acc Uk Ex Sx P1).
    change (skip_ws (125 :: rest)) with (125 :: rest). cbv iota.
    change (125 =? 125) with true. cbv iota.
    simpl map in D.
    rewrite (distinct_keys_fresh acc k [] D x). reflexivity.
  - destruct (IH Jl ltac:(discriminate)) as [parts' [t' [D' [E' P']]]].
    assert (NP : exists p ps, parts' = p :: ps).
    { destruct parts' as [|p ps]; [|eauto]. simpl in E'. discriminate E'. }
    destruct NP as [p [ps ->]].
    exists (mt :: p :: ps),
           ((flat_map escape_char k ++ 34 :: 58 :: 32 :: px)
            ++ [44; 32] ++ join_sep [44; 32] (p :: ps)).
    split.
    { change (map member_text ((k, x) :: kv' :: rest''))
        with (member_text (k, x) :: map member_text (kv' :: rest'')).
      rewrite Dm. apply sequence_cons_ok. exact D'. }
    split.
    { change (join_sep [44; 32] (mt :: p :: ps))
        with (mt ++ [44; 32] ++ join_sep [44; 32] (p :: ps)).
      rewrite Mt. reflexivity. }
    intros acc rest D.
    change (join_sep [44; 32] (mt :: p :: ps))
      with (mt ++ [44; 32] ++ join_sep [44; 32] (p :: ps)).
    rewrite Mt.
    change ((34 :: flat_map escape_char k ++ 34 :: 58 :: 32 :: px)
            ++ [44; 32] ++ join_sep [44; 32] (p :: ps))
      with (34 :: (flat_map escape_char k ++ 34 :: 58 :: 32 :: px)
                  ++ [44; 32] ++ join_sep [44; 32] (p :: ps)).
    change ((34 :: ?u) ++ 125 :: rest) with (34 :: u ++ 125 :: rest).
    rewrite <- !app_assoc.
    change ((34 :: 58 :: 32 :: px)
            ++ [44; 32] ++ join_sep [44; 32] (p :: ps) ++ 125 :: rest)
      with (34 :: 58 :: 32 :: px
               ++ 44 :: 32 :: join_sep [44; 32] (p :: ps) ++ 125 :: rest).
    destruct (Px (44 :: 32 :: join_sep [44; 32] (p :: ps) ++ 125 :: rest) eq_refl)
      as [n1 P1].
    simpl map in D.
    assert (D2 : distinct_keys (map fst (acc ++ [(k, x)])
                                ++ map fst (kv' :: rest'')) = true).
    { rewrite map_app, <- app_assoc. exact D. }
    destruct (P' (acc ++ [(k, x)]) rest D2) as [n2 P2].
    exists (S (Nat.max n1 n2)).
    rewrite (parse_member_value (Nat.max n1 n2) k x px c t _ acc Uk Ex Sx
               (scan_once_stable n1 _ _ _ _ P1 (Nat.le_max_l n1 n2))).
    change (skip_ws (44 :: 32 :: ?u)) with (44 :: 32 :: u). cbv iota.
    change (44 =? 125) with false. change (44 =? 44) with true. cbv iota.
    change (skip_ws (32 :: ?u)) with (skip_ws u).
    rewrite E'.
    change (skip_ws ((34 :: t') ++ 125 :: rest)) with (34 :: t' ++ 125 :: rest).
    rewrite (distinct_keys_fresh acc k (map fst (kv' :: rest'')) D x).
    rewrite E' in P2.
    change ((34 :: t') ++ 125 :: rest) with (34 :: t' ++ 125 :: rest) in P2.
    rewrite (parse_members_stable n2 _ _ _ _ _ P2 (Nat.le_max_r n1 n2)).
    rewrite <- app_assoc. reflexivity.
Qed.

Lemma json_value_good : forall v, json_value v = true -> good v.
Proof.
  induction v using PyVal_nested_ind; intros J; try discriminate J.
  - exists (str_lit "null"), 110, (str_lit "ull").
    repeat split. intros rest _. exists 1%nat. reflexivity.
  - destruct b.
    + exists (str_lit "true"), 116, (str_lit "rue").
      repeat split. intros rest _. exists 1%nat. reflexivity.
    + exists (str_lit "false"), 102, (str_lit "alse").
      repeat split. intros rest _. exists 1%nat. reflexivity.
  - destruct (scan_int fr z [] 0 eq_refl) as [_ [c [t [E Q]]]].
    exists (int_repr z), c, t. split; [reflexivity|]. split; [exact E|].
    split.
    + destruct Q as [->|Q]; [reflexivity|]. apply in_range_bounds in Q.
      unfold value_start, is_ws.
      assert (A1 : (c =? 32) = false) by (apply N.eqb_neq; lia).
      assert (A2 : (c =? 9) = false) by (apply N.eqb_neq; lia).
      assert (A3 : (c =? 10) = false) by (apply N.eqb_neq; lia).
      assert (A4 : (c =? 13) = false) by (apply N.eqb_neq; lia).
      assert (A5 : (c =? 93) = false) by (apply N.eqb_neq; lia).
      assert (A6 : (c =? 125) = false) by (apply N.eqb_neq; lia).
      assert (A7 : (c =? 65279) = false) by (apply N.eqb_neq; lia).
      rewrite A1, A2, A3, A4, A5, A6, A7. reflexivity.
    + intros rest D. exists 1%nat. apply (scan_int fr z rest 0 D).
  - simpl in J. pose proof (forallb_is_scalar s J) as U.
    exists (encode_basestring_ascii s), 34, (flat_map escape_char s ++ [34]).
    repeat split. intros rest _. exists 1%nat.
    unfold encode_basestring_ascii.
    change ((34 :: flat_map escape_char s ++ [34]) ++ rest)
      with (34 :: (flat_map escape_char s ++ [34]) ++ rest).
    rewrite <- app_assoc. change ([34] ++ rest) with (34 :: rest).
    cbn [scan_once]. change (34 =? 34) with true. cbv iota.
    rewrite (scanstring_escaped s rest U). reflexivity.
  - simpl in J. destruct l as [|x l'].
    + exists (str_lit "[]"), 91, [93]. repeat split.
      intros rest _. exists 1%nat. reflexivity.
    + destruct (elems_round_trip (x :: l') H J ltac:(discriminate))
        as [parts [c [t [D [E [Sv P]]]]]].
      exists (91 :: join_sep [44; 32] parts ++ [93]), 91,
             (join_sep [44; 32] parts ++ [93]).
      split; [cbn [json_dumps]; rewrite D; reflexivity|].
      split; [reflexivity|]. split; [reflexivity|].
      intros rest _. destruct (P [] rest) as [n Pn]. exists (S n).
      change ((91 :: join_sep [44; 32] parts ++ [93]) ++ rest)
        with (91 :: (join_sep [44; 32] parts ++ [93]) ++ rest).
      rewrite <- app_assoc. change ([93] ++ rest) with (93 :: rest).
      cbn [scan_once]. change (91 =? 34) with false.
      change (91 =? 123) with false. change (91 =? 91) with true. cbv iota.
      rewrite E. change ((c :: t) ++ 93 :: rest) with (c :: t ++ 93 :: rest).
      rewrite (skip_ws_value_start c _ Sv).
      assert (C : (c =? 93) = false).
      { unfold value_start in Sv.
        apply andb_prop in Sv. destruct Sv as [Sv _].
        apply andb_prop in Sv. destruct Sv as [Sv _].
        apply andb_prop in Sv. destruct Sv as [_ Sv].
        apply negb_true_iff. exact Sv. }
      rewrite C. rewrite E in Pn. exact Pn.
  - simpl in J. apply andb_prop in J. destruct J as [J K].
    destruct items as [|kv items'].
    + exists (str_lit "{}"), 123, [125]. repeat split.
      intros rest _. exists 1%nat. reflexivity.
    + destruct (members_round_trip (kv :: items') H J ltac:(discriminate))
        as [parts [t [D [E P]]]].
      exists (123 :: join_sep [44; 32] parts ++ [125]), 123,
             (join_sep [44; 32] parts ++ [125]).
      split.
      { change (json_dumps (PyDict (kv :: items')))
          with (res_map (fun parts => 123 :: join_sep [44; 32] parts ++ [125])
                        (sequence (map member_text (kv :: items')))).
        rewrite D. reflexivity. }
      split; [reflexivity|]. split; [reflexivity|].
      intros rest _. destruct (P [] rest K) as [n Pn]. exists (S n).
      change ((123 :: join_sep [44; 32] parts ++ [125]) ++ rest)
        with (123 :: (join_sep [44; 32] parts ++ [125]) ++ rest).
      rewrite <- app_assoc. change ([125] ++ rest) with (125 :: rest).
      cbn [scan_once]. change (123 =? 34) with false.
      change (123 =? 123) with true. cbv iota.
      rewrite E.
      change (skip_ws ((34 :: t) ++ 125 :: rest)) with (34 :: t ++ 125 :: rest).
      cbv iota. change (34 =? 125) with false. cbv iota.
      rewrite E in Pn. exact Pn.
Qed.

Lemma loads_dumps :
  forall v,
  json_value v = true ->
  exists text, json_dumps v = Ok text /\ json_loads fr text = Ok v.
Proof.
  intros v J. destruct (json_value_good v J) as [text [c [t [D [E [Sv P]]]]]].
  exists text. split; [exact D|].
  destruct (P [] eq_refl) as [n Pn]. rewrite app_nil_r in Pn.
  assert (W : skip_ws text = text).
  { rewrite E. apply skip_ws_value_start. exact Sv. }
  unfold json_loads. rewrite E.
  assert (B : (c =? 65279) = false).
  { unfold value_start in Sv. apply andb_prop in Sv. destruct Sv as [_ Sv].
    apply negb_true_iff. exact Sv. }
  rewrite B. rewrite <- E. apply (decode_of_scan n text v W Pn).
Qed.

End General.

(** ** Round trips *)

Lemma json_value_serializable :
  forall v, json_value v = true -> json_serializable v = true.
Proof.
  induction v using PyVal_nested_ind; intros J; try discriminate J;
    try reflexivity.
  - simpl in *. induction H as [|x l Hx Hl IH]; [reflexivity|].
    simpl in *. apply andb_prop in J. destruct J as [Jx Jl].
    rewrite (Hx Jx), (IH Jl). reflexivity.
  - simpl in *. apply andb_prop in J. destruct J as [J _].
    induction H as [|[k x] l Hx Hl IH]; [reflexivity|].
    simpl in *. apply andb_prop in J. destruct J as [Jx Jl].
    apply andb_prop in Jx. destruct Jx as [_ Jx].
    rewrite (Hx Jx), (IH Jl). reflexivity.
Qed.

(** X16: [bytes.decode('utf-8')] and [str.encode('utf-8')] are inverse of
    each other: a text without surrogates encodes to bytes that decode to
    it, and bytes that decode give a text without surrogates that encodes
    to the same bytes (no overlong or otherwise non-canonical form is
    accepted). *)
Theorem utf8_decode_inverts_encode :
  (forall s, unicode_text s ->
     exists b, utf8_encode s = Some b /\ utf8_decode b = Some s)
  /\ (forall b s, utf8_decode b = Some s ->
        unicode_text s /\ utf8_encode s = Some b).
Proof.
  split.
  - apply utf8_round_trip.
  - intros b s H. apply (utf8_decode_canonical_bounded (List.length b) b s);
      [lia|exact H].
Qed.

Lemma utf8_decode_inverts_encode_witness :
  (exists b, utf8_encode [97; 233; 8364; 128512] = Some b
             /\ utf8_decode b = Some [97; 233; 8364; 128512])
  /\ utf8_encode [233; 128512] = Some [xc3; xa9; xf0; x9f; x98; x80].
Proof.
  split.
  - apply (proj1 utf8_decode_inverts_encode). repeat constructor.
  - apply (proj2 utf8_decode_inverts_encode [xc3; xa9; xf0; x9f; x98; x80]).
    reflexivity.
Defined.

(** X20: [.encode('utf-8')] never fails on what [json.dumps] returns, and
    the bytes decode to the same text: the text is ASCII, lone surrogates
    of the data being written as escapes. *)
Theorem dumped_text_always_encodes :
  forall v text,
  json_dumps v = Ok text ->
  exists body, str_encode text = Ok body /\ utf8_decode body = Some text.
Proof.
  intros v text D.
  pose proof (json_dumps_spec v) as S. unfold dumps_spec in S. rewrite D in S.
  destruct S as [_ E].
  destruct (utf8_round_trip text (encodable_unicode_text text E)) as [body [A B]].
  exists body. unfold str_encode. rewrite A. split; [reflexivity|exact B].
Qed.

Lemma dumped_text_always_encodes_witness :
  utf8_encode [0xD800] = None
  /\ exists body,
       str_encode (json_lit "['\ud800', '\ud83d\ude00']") = Ok body
       /\ utf8_decode body = Some (json_lit "['\ud800', '\ud83d\ude00']").
Proof.
  split; [reflexivity|].
  apply (dumped_text_always_encodes (PyList [PyStr [0xD800]; PyStr [128512]])).
  reflexivity.
Defined.

(** X19: the dict that [json.loads] builds and [.get] reads: after a key is
    set, [.get] of that key gives the new value and [.get] of any other
    key is unchanged; a key already present keeps its position (so the
    last of duplicate members wins, in the place of the first), a new key
    goes last. *)
Theorem dict_get_dict_set :
  forall items key v other,
  dict_get (dict_set items key v) other
  = (if pystr_eqb key other then v else dict_get items other)
  /\ map fst (dict_set items key v)
     = (if existsb (fun k => pystr_eqb k key) (map fst items)
        then map fst items
        else map fst items ++ [key]).
Proof.
  intros items key v other. split.
  - induction items as [|[k w] rest IH]; simpl.
    + reflexivity.
    + destruct (pystr_eqb k key) eqn:E; simpl.
      * unfold pystr_eqb in E.
        destruct (list_eq_dec N.eq_dec k key) as [->|]; [|discriminate E].
        destruct (pystr_eqb key other); reflexivity.
      * destruct (pystr_eqb k other) eqn:F; [|exact IH].
        unfold pystr_eqb in E, F.
        destruct (list_eq_dec N.eq_dec k other) as [->|]; [|discriminate F].
        destruct (list_eq_dec N.eq_dec other key) as [->|NE]; [discriminate E|].
        unfold pystr_eqb.
        destruct (list_eq_dec N.eq_dec key other) as [Q|_]; [|reflexivity].
        exfalso. apply NE. symmetry. exact Q.
  - induction items as [|[k w] rest IH]; simpl.
    + reflexivity.
    + destruct (pystr_eqb k key) eqn:E; simpl; [reflexivity|].
      rewrite IH.
      destruct (existsb (fun k0 => pystr_eqb k0 key) (map fst rest)); reflexivity.
Qed.

Section Handler_round_trip.
Variable fr : pystr -> string.


End Handler_round_trip.


Section JSON_round_trip.

Variable fr : pystr -> string.


End JSON_round_trip.

